(** * Auslander-Reiten quiver construction (ar.py): model and properties

    A shallow embedding of [ar.py]: the Horspool search [findsublist], the
    class [Quiver] (a networkx [MultiDiGraph] with rewriting relations and
    cached dimension vectors) and the builder [arQuiver].

    Conventions.
    - Python 2 with networkx 1.x: [nodes()] and [successors()] return
      lists.  A graph is a list of nodes and a list of edges, both in
      insertion order; [successors] lists each neighbour once, however
      many parallel edges lead to it (it enumerates the keys of the
      adjacency dict of the node).
    - A dict is an association list with unique keys; the list is the
      order in which the dict is iterated over.  Python 2 takes that order
      from the hashes of the keys, not from the order of the insertions:
      [dict_set] puts a new key last, and no property below says where a
      new key lands.  What depends on the order of the relations is
      stated for a given list of relations.
    - A call either returns, raises, or does not return: [outcome].  Loops
      and recursion whose termination depends on the input take a [fuel]
      bound and answer [Diverge] when it is used up.
    - Printing is left out. *)

From Stdlib Require Import List ZArith Lia Bool Arith Relations FinFun.
Import ListNotations.
Open Scope Z_scope.

Set Implicit Arguments.

(** ** Outcomes of a call *)

Inductive exn : Type :=
| IndexError
| ValueError
| NetworkXError.

Inductive outcome (A : Type) : Type :=
| Done (a : A)
| Raise (e : exn)
| Diverge.

Arguments Done {A} a.
Arguments Raise {A} e.
Arguments Diverge {A}.

Definition bind {A B : Type} (m : outcome A) (k : A -> outcome B) : outcome B :=
  match m with
  | Done a => k a
  | Raise e => Raise e
  | Diverge => Diverge
  end.

Notation "x <- m ;; k" := (bind m (fun x => k))
  (at level 61, m at next level, right associativity).
Notation "' pat <- m ;; k" := (bind m (fun x => match x with pat => k end))
  (at level 61, pat pattern, m at next level, right associativity).

(** ** Decidable equality of the elements (Python's [==] on hashable values) *)

Class EqDec (A : Type) : Type :=
  eq_dec : forall x y : A, {x = y} + {x <> y}.

#[export] Instance nat_EqDec : EqDec nat := Nat.eq_dec.
#[export] Instance Z_EqDec : EqDec Z := Z.eq_dec.
#[export] Instance list_EqDec {A : Type} `{EqDec A} : EqDec (list A) :=
  list_eq_dec eq_dec.

Definition eqb {A : Type} `{EqDec A} (x y : A) : bool :=
  if eq_dec x y then true else false.

Definition mem {A : Type} `{EqDec A} (x : A) (l : list A) : bool :=
  existsb (eqb x) l.

(** ** Python sequences *)

(** [range(m)] *)
Definition range (m : Z) : list Z := map Z.of_nat (seq 0 (Z.to_nat m)).

(** [l[k]], negative subscripts counting from the end. *)
Definition getitem {A : Type} (l : list A) (k : Z) : outcome A :=
  let len := Z.of_nat (length l) in
  let k' := if k <? 0 then k + len else k in
  if (0 <=? k') && (k' <? len) then
    match nth_error l (Z.to_nat k') with
    | Some a => Done a
    | None => Raise IndexError
    end
  else Raise IndexError.

(** [l[k:]] for [0 <= k] *)
Definition slice_from {A : Type} (l : list A) (k : Z) : list A :=
  skipn (Z.to_nat k) l.

(** ** Dicts *)

Definition dict (K V : Type) : Type := list (K * V).

Fixpoint dict_set {K V : Type} `{EqDec K} (d : dict K V) (k : K) (v : V) : dict K V :=
  match d with
  | [] => [(k, v)]
  | (k', v') :: d' =>
      if eq_dec k k' then (k, v) :: d' else (k', v') :: dict_set d' k v
  end.

Fixpoint dict_get {K V : Type} `{EqDec K} (d : dict K V) (k : K) (default : V) : V :=
  match d with
  | [] => default
  | (k', v') :: d' => if eq_dec k k' then v' else dict_get d' k default
  end.

(** ** findsublist *)

Section FindSublist.
Context {A : Type} `{EqDec A}.

(** [skip = {needle[i]: n - i - 1 for i in range(n - 1)}], the entries
    written in the order of [idxs]. *)
Fixpoint build_skip (needle : list A) (n : Z) (idxs : list Z) (d : dict A Z)
  : outcome (dict A Z) :=
  match idxs with
  | [] => Done d
  | i :: idxs' =>
      c <- getitem needle i ;;
      build_skip needle n idxs' (dict_set d c (n - i - 1))
  end.

Definition skip_table (needle : list A) : outcome (dict A Z) :=
  let n := Z.of_nat (length needle) in
  build_skip needle n (range (n - 1)) [].

(** The [for j in range(n)] loop: [true] when it leaves through [break]
    (a mismatch), [false] when it runs to its [else]. *)
Fixpoint window_mismatch (haystack needle : list A) (i : Z) (js : list Z)
  : outcome bool :=
  match js with
  | [] => Done false
  | j :: js' =>
      a <- getitem haystack (i - j) ;;
      b <- getitem needle (- j - 1) ;;
      if eq_dec a b then window_mismatch haystack needle i js' else Done true
  end.

(** The [while i < h] loop. *)
Fixpoint bmh_loop (fuel : nat) (haystack needle : list A) (skip : dict A Z) (i : Z)
  : outcome Z :=
  match fuel with
  | O => Diverge
  | S fuel' =>
      let h := Z.of_nat (length haystack) in
      let n := Z.of_nat (length needle) in
      if i <? h then
        m <- window_mismatch haystack needle i (range n) ;;
        if (m : bool) then
          c <- getitem haystack i ;;
          bmh_loop fuel' haystack needle skip (i + dict_get skip c n)
        else Done (i - n + 1)
      else Done (-1)
  end.

(** The loop makes at most [h] unsuccessful comparisons before [i]
    reaches [h] (every skip is at least 1), so [h + 1] rounds are always
    enough: see [findsublist_returns]. *)
Definition findsublist (haystack needle : list A) : outcome Z :=
  let n := Z.of_nat (length needle) in
  skip <- skip_table needle ;;
  bmh_loop (S (length haystack)) haystack needle skip (n - 1).

End FindSublist.

(** ** Monadic list traversals (list comprehensions whose body may raise) *)

Fixpoint mapM {A B : Type} (f : A -> outcome B) (l : list A) : outcome (list B) :=
  match l with
  | [] => Done []
  | a :: l' => b <- f a ;; bs <- mapM f l' ;; Done (b :: bs)
  end.

Fixpoint flat_mapM {A B : Type} (f : A -> outcome (list B)) (l : list A)
  : outcome (list B) :=
  match l with
  | [] => Done []
  | a :: l' => bs <- f a ;; rest <- flat_mapM f l' ;; Done (bs ++ rest)
  end.

Fixpoint foldM {A S : Type} (f : S -> A -> outcome S) (l : list A) (s : S) : outcome S :=
  match l with
  | [] => Done s
  | a :: l' => s' <- f s a ;; foldM f l' s'
  end.

(** The distinct elements of a list, each at its first position (building
    a [set], or listing the keys of a dict filled in this order). *)
Fixpoint dedup {A : Type} `{EqDec A} (l : list A) : list A :=
  match l with
  | [] => []
  | a :: l' => a :: filter (fun b => negb (eqb b a)) (dedup l')
  end.

(** [l.index(v)] *)
Fixpoint index_of {A : Type} `{EqDec A} (l : list A) (v : A) : outcome Z :=
  match l with
  | [] => Raise ValueError
  | a :: l' => if eq_dec a v then Done 0 else i <- index_of l' v ;; Done (i + 1)
  end.

(** [l[k] = x] *)
Definition setitem {A : Type} (l : list A) (k : Z) (x : A) : outcome (list A) :=
  let len := Z.of_nat (length l) in
  let k' := if k <? 0 then k + len else k in
  if (0 <=? k') && (k' <? len) then
    Done (firstn (Z.to_nat k') l ++ x :: skipn (S (Z.to_nat k')) l)
  else Raise IndexError.

(** ** The class Quiver *)

(** A dimension vector (a tuple of ints). *)
Definition vec : Type := list Z.

(** [nodes], [edges]: the state of the underlying [MultiDiGraph];
    [rel], [comm], [api], [aii], [ari]: the attributes set by [__init__]. *)
Record Quiver (N : Type) : Type := mkQuiver {
  nodes : list N;
  edges : list (N * N);
  rel : dict (list N) (list N);
  comm : bool;
  api : option (list vec);
  aii : option (list vec);
  ari : option (list vec)
}.

Arguments mkQuiver {N}.

Section QuiverOps.
Context {N : Type} `{EqDec N}.

(** [Quiver()] *)
Definition new_quiver : Quiver N :=
  mkQuiver [] [] [] false None None None.

(** networkx: [G.add_node(n)] *)
Definition add_node (G : Quiver N) (n : N) : Quiver N :=
  if mem n (nodes G) then G
  else mkQuiver (nodes G ++ [n]) (edges G) (rel G) (comm G) (api G) (aii G) (ari G).

(** networkx: [G.add_edge(u, v)] adds the missing end points, then one
    more edge from [u] to [v]. *)
Definition add_edge (G : Quiver N) (u v : N) : Quiver N :=
  let G1 := add_node (add_node G u) v in
  mkQuiver (nodes G1) (edges G1 ++ [(u, v)]) (rel G1) (comm G1)
           (api G1) (aii G1) (ari G1).

(** networkx: [G.remove_node(n)] removes [n] and the edges at [n]; it
    raises [NetworkXError] when [n] is not a node. *)
Definition remove_node (G : Quiver N) (n : N) : outcome (Quiver N) :=
  if mem n (nodes G) then
    Done (mkQuiver (filter (fun x => negb (eqb x n)) (nodes G))
                   (filter (fun e => negb (eqb (fst e) n) && negb (eqb (snd e) n))
                           (edges G))
                   (rel G) (comm G) (api G) (aii G) (ari G))
  else Raise NetworkXError.

(** networkx: [G.successors(n)], the neighbours reached by an edge from
    [n], each listed once; [NetworkXError] when [n] is not a node. *)
Definition successors (G : Quiver N) (n : N) : outcome (list N) :=
  if mem n (nodes G) then
    Done (dedup (map snd (filter (fun e => eqb (fst e) n) (edges G))))
  else Raise NetworkXError.

(** [add_relation]: [self.rel[path0] = path1].  The replacement stored
    under [path0] is overwritten; where a new pattern comes in the
    iteration order is the interpreter's choice (here: last). *)
Definition add_relation (G : Quiver N) (path0 path1 : list N) : Quiver N :=
  mkQuiver (nodes G) (edges G) (dict_set (rel G) path0 path1) (comm G)
           (api G) (aii G) (ari G).

(** One pass of [for r in self.rel] in [applyRelations]; [p] is the
    argument of [applyRelations], [ret] and [stop] its local variables.
    The keys of a dict are distinct, so the pairs of [rs] are the keys
    [r] with [self.rel[r]]. *)
Fixpoint scan_relations (p : list N) (rs : dict (list N) (list N))
         (ret : list N) (stop : bool) : outcome (list N * bool) :=
  match rs with
  | [] => Done (ret, stop)
  | (r, repl) :: rs' =>
      pos <- findsublist ret r ;;
      if 0 <=? pos then
        scan_relations p rs'
          (repl ++ slice_from p (pos + Z.of_nat (length r))) false
      else scan_relations p rs' ret stop
  end.

(** The [while not stop] loop. *)
Fixpoint rewrite_loop (fuel : nat) (G : Quiver N) (p ret : list N)
  : outcome (list N) :=
  match fuel with
  | O => Diverge
  | S fuel' =>
      '(ret', stop) <- scan_relations p (rel G) ret true ;;
      if (stop : bool) then Done ret' else rewrite_loop fuel' G p ret'
  end.

Definition applyRelations (fuel : nat) (G : Quiver N) (p : list N)
  : outcome (list N) :=
  rewrite_loop fuel G p p.

Fixpoint listPaths (fuel : nat) (G : Quiver N) (s t : N)
  : outcome (list (list N)) :=
  match fuel with
  | O => Diverge
  | S fuel' =>
      if eq_dec s t then Done [[t]]
      else
        sss <- successors G s ;;
        flat_mapM (fun ss => ps <- listPaths fuel' G ss t ;;
                             Done (map (cons s) ps)) sss
  end.

Definition listReducedPaths (fuel : nat) (G : Quiver N) (s t : N)
  : outcome (list (list N)) :=
  paths <- listPaths fuel G s t ;;
  red <- mapM (applyRelations fuel G) paths ;;
  Done (dedup red).

Definition countReducedPaths (fuel : nat) (G : Quiver N) (s t : N) : outcome Z :=
  l <- listReducedPaths fuel G s t ;;
  let npaths := Z.of_nat (length l) in
  if comm G then
    if npaths =? 0 then Done 0 else Done 1
  else Done npaths.

(** [if self.api:] and the like: a cache is used when it is a non-empty
    list. *)
Definition cached (c : option (list vec)) : option (list vec) :=
  match c with
  | Some (x :: l) => Some (x :: l)
  | _ => None
  end.

Definition proj_indecomp (fuel : nat) (G : Quiver N) (v : N) : outcome vec :=
  match cached (api G) with
  | Some c => i <- index_of (nodes G) v ;; getitem c i
  | None => mapM (fun w => countReducedPaths fuel G v w) (nodes G)
  end.

Definition inj_indecomp (fuel : nat) (G : Quiver N) (v : N) : outcome vec :=
  match cached (aii G) with
  | Some c => i <- index_of (nodes G) v ;; getitem c i
  | None => mapM (fun w => countReducedPaths fuel G w v) (nodes G)
  end.

Definition radical_proj (fuel : nat) (G : Quiver N) (v : N) : outcome vec :=
  match cached (ari G) with
  | Some c => i <- index_of (nodes G) v ;; getitem c i
  | None =>
      proj <- proj_indecomp fuel G v ;;
      i <- index_of (nodes G) v ;;
      setitem proj i 0
  end.

Definition all_proj_indecomp (fuel : nat) (G : Quiver N)
  : outcome (Quiver N * list vec) :=
  match cached (api G) with
  | Some c => Done (G, c)
  | None =>
      c <- mapM (proj_indecomp fuel G) (nodes G) ;;
      Done (mkQuiver (nodes G) (edges G) (rel G) (comm G)
                     (Some c) (aii G) (ari G), c)
  end.

Definition all_rad_indecomp (fuel : nat) (G : Quiver N)
  : outcome (Quiver N * list vec) :=
  match cached (ari G) with
  | Some c => Done (G, c)
  | None =>
      c <- mapM (radical_proj fuel G) (nodes G) ;;
      Done (mkQuiver (nodes G) (edges G) (rel G) (comm G)
                     (api G) (aii G) (Some c), c)
  end.

Definition all_inj_indecomp (fuel : nat) (G : Quiver N)
  : outcome (Quiver N * list vec) :=
  match cached (aii G) with
  | Some c => Done (G, c)
  | None =>
      c <- mapM (inj_indecomp fuel G) (nodes G) ;;
      Done (mkQuiver (nodes G) (edges G) (rel G) (comm G)
                     (api G) (Some c) (ari G), c)
  end.

(** [zeros] *)
Definition zeros (G : Quiver N) : vec := map (fun _ => 0) (nodes G).

End QuiverOps.

(** [isSimple] *)
Definition isSimple (module : vec) : bool :=
  (fold_right Z.add 0 module =? 1)
  && Nat.eqb (length (filter (fun m => negb (m =? 0)) module)) 1.

(** ** arQuiver *)

(** [w = tuple([sum([s[j] for s in ss]) - p[j] for j in range(len(p))])] *)
Definition candidate (ss : list vec) (p : vec) : outcome vec :=
  mapM (fun j => col <- mapM (fun s => getitem s j) ss ;;
                 pj <- getitem p j ;;
                 Done (fold_right Z.add 0 col - pj))
       (range (Z.of_nat (length p))).

(** The body of [for s in ss] at the end of a worklist round. *)
Definition link_successor (w : vec) (st : Quiver vec * list vec) (s : vec)
  : Quiver vec * list vec :=
  let '(ar, todo) := st in
  (add_edge ar s w, if mem s todo then todo else todo ++ [s]).

(** What one round of [while len(todo) > 0] leads to: the next round, or
    the end of [arQuiver] with its result. *)
Inductive round (N : Type) : Type :=
| Next (G : Quiver N) (ar : Quiver vec) (todo : list vec)
| Return (ar : Quiver vec).

Arguments Next {N} G ar todo.
Arguments Return {N} ar.

Section ARQuiver.
Context {N : Type} `{EqDec N}.

(** The body of [for v in G.nodes()]. *)
Definition seed_step (fuel : nat) (G : Quiver N) (st : Quiver vec * list vec) (v : N)
  : outcome (Quiver vec * list vec) :=
  let '(ar, todo) := st in
  r <- radical_proj fuel G v ;;
  pj <- proj_indecomp fuel G v ;;
  let ar := add_edge ar r pj in
  ij <- inj_indecomp fuel G v ;;
  let ar := add_node ar ij in
  pj' <- proj_indecomp fuel G v ;;
  if isSimple pj' then
    pj'' <- proj_indecomp fuel G v ;;
    Done (ar, todo ++ [pj''])
  else Done (ar, todo).

(** The seed loop followed by [ar.remove_node(G.zeros())]. *)
Definition seed (fuel : nat) (G : Quiver N) : outcome (Quiver vec * list vec) :=
  '(ar, todo) <- foldM (seed_step fuel G) (nodes G) (new_quiver, []) ;;
  ar' <- remove_node ar (zeros G) ;;
  Done (ar', todo).

(** [G.isSimple(p) and p in G.all_inj_indecomp()]; the second operand is
    evaluated, and fills the cache [aii], only when the first holds. *)
Definition rule_A (fuel : nat) (G : Quiver N) (p : vec) : outcome (Quiver N * bool) :=
  if isSimple p then
    '(G', injs) <- all_inj_indecomp fuel G ;;
    Done (G', mem p injs)
  else Done (G, false).

Definition worklist_round (fuel : nat) (G : Quiver N) (ar : Quiver vec)
           (todo : list vec) : outcome (round N) :=
  match todo with
  | [] => Done (Return ar)
  | p :: todo' =>
      '(G', skip) <- rule_A fuel G p ;;
      if (skip : bool) then Done (Next G' ar todo')
      else
        ss <- successors ar p ;;
        w <- candidate ss p ;;
        if existsb (fun wv => wv <? 0) w then Done (Next G' ar todo')
        else if existsb (fun wv => 7 <=? wv) w then Done (Return ar)
        else
          let '(ar', todo'') := fold_left (link_successor w) ss (ar, todo') in
          Done (Next G' ar' todo'')
  end.

Fixpoint worklist (rounds fuel : nat) (G : Quiver N) (ar : Quiver vec)
         (todo : list vec) : outcome (Quiver vec) :=
  match rounds with
  | O => Diverge
  | S rounds' =>
      r <- worklist_round fuel G ar todo ;;
      match r with
      | Return ar' => Done ar'
      | Next G' ar' todo' => worklist rounds' fuel G' ar' todo'
      end
  end.

Definition arQuiver (fuel : nat) (G : Quiver N) : outcome (Quiver vec) :=
  '(ar, todo) <- seed fuel G ;;
  worklist fuel fuel G ar todo.

(** The state after [k] more rounds, while the loop is still running. *)
Fixpoint after_rounds (k fuel : nat) (G : Quiver N) (ar : Quiver vec)
         (todo : list vec) : outcome (round N) :=
  match k with
  | O => Done (Next G ar todo)
  | S k' =>
      r <- worklist_round fuel G ar todo ;;
      match r with
      | Return ar' => Done (Return ar')
      | Next G' ar' todo' => after_rounds k' fuel G' ar' todo'
      end
  end.

End ARQuiver.

(** ** Notions used to state the properties *)

(** [needle] occurs in [haystack] as a contiguous sub-sequence starting at
    position [p]. *)
Definition occurs_at {A : Type} (needle haystack : list A) (p : nat) : Prop :=
  exists pre post, haystack = pre ++ needle ++ post /\ length pre = p.

(** The same, position by position. *)
Definition match_at {A : Type} (needle haystack : list A) (q : Z) : Prop :=
  0 <= q /\ q + Z.of_nat (length needle) <= Z.of_nat (length haystack) /\
  forall k, 0 <= k < Z.of_nat (length needle) ->
            nth_error haystack (Z.to_nat (q + k)) = nth_error needle (Z.to_nat k).

(** [path] with the [len] elements from position [pos] on replaced by
    [repl]. *)
Definition splice {A : Type} (path : list A) (pos len : nat) (repl : list A) : list A :=
  firstn pos path ++ repl ++ skipn (pos + len) path.

(** What the skip table of [needle] promises about the shift [s] for the
    element [c], as far as the positions below [upto] go. *)
Definition good_shift {A : Type} (needle : list A) (upto : Z) (c : A) (s : Z) : Prop :=
  1 <= s <= Z.of_nat (length needle) /\
  forall k, 0 <= k < upto ->
            nth_error needle (Z.to_nat k) = Some c ->
            s <= Z.of_nat (length needle) - 1 - k.

(** No pattern of [rs] is found in [ret]. *)
Definition no_match {N : Type} `{EqDec N} (ret : list N) (rs : dict (list N) (list N)) : Prop :=
  Forall (fun rr => exists pos, findsublist ret (fst rr) = Done pos /\ pos < 0) rs.

Definition nonneg (v : vec) : Prop := Forall (fun x => 0 <= x) v.

(** The vectors in the cache of projectives have no negative component:
    true of a new quiver, and kept by every method (see [api_nonneg_new]
    and the lemmas after it). *)
Definition api_nonneg {N : Type} (G : Quiver N) : Prop :=
  match api G with
  | Some c => Forall nonneg c
  | None => True
  end.

(** Every edge of the AR quiver ends in a vector without negative
    component. *)
Definition targets_nonneg (ar : Quiver vec) : Prop :=
  forall u v, In (u, v) (edges ar) -> nonneg v.

(** What the builder keeps true of its two variables. *)
Definition builder_inv (st : Quiver vec * list vec) : Prop :=
  targets_nonneg (fst st) /\ Forall nonneg (snd st).

(** There is an edge from [u] to [v]. *)
Definition edge {N : Type} (G : Quiver N) (u v : N) : Prop := In (u, v) (edges G).

(** [p] is the sequence of vertices of a directed walk from [s] to [t]. *)
Inductive walk {N : Type} (G : Quiver N) : N -> N -> list N -> Prop :=
| walk_end (t : N) : walk G t t [t]
| walk_step (s u t : N) (p : list N) :
    edge G s u -> walk G u t p -> walk G s t (s :: p).

Definition acyclic {N : Type} (G : Quiver N) : Prop :=
  forall v, ~ clos_trans N (edge G) v v.

(** The end points of the edges are nodes (as [add_edge] sees to). *)
Definition closed {N : Type} (G : Quiver N) : Prop :=
  forall u v, edge G u v -> In u (nodes G) /\ In v (nodes G).

(** The number of directed walks from [s] to [t] in the multigraph: every
    edge out of [s], parallel ones included, starts walks of its own. *)
Fixpoint count_walks {N : Type} `{EqDec N} (fuel : nat) (G : Quiver N) (s t : N) : nat :=
  match fuel with
  | O => O
  | S fuel' =>
      if eq_dec s t then 1%nat
      else fold_right
             (fun e acc =>
                ((if eq_dec (fst e) s then count_walks fuel' G (snd e) t else O) + acc)%nat)
             O (edges G)
  end.

(** ** Concrete quivers *)

Definition add_edges {N : Type} `{EqDec N} (G : Quiver N) (es : list (N * N)) : Quiver N :=
  fold_left (fun g e => add_edge g (fst e) (snd e)) es G.

(** The quiver of the "Example usage" in the source, without and with its
    two relations. *)
Definition example_dag : Quiver nat :=
  add_edges new_quiver [(1, 2); (3, 2); (4, 5); (6, 5); (1, 4); (2, 5); (3, 6)]%nat.

Definition example_quiver : Quiver nat :=
  add_relation (add_relation example_dag [1; 2; 5]%nat [1; 4; 5]%nat)
               [3; 2; 5]%nat [3; 6; 5]%nat.

(** The quiver [Q] built at the end of the source, with [Q.comm = True]. *)
Definition comm_quiver : Quiver nat :=
  let G := add_edges new_quiver
             [(1, 2); (3, 2); (4, 3); (1, 5); (2, 6); (3, 7); (4, 8);
              (5, 6); (7, 6); (8, 7)]%nat in
  mkQuiver (nodes G) (edges G) (rel G) true (api G) (aii G) (ari G).

(** Two parallel arrows from 1 to 2. *)
Definition parallel_quiver : Quiver nat :=
  add_edges new_quiver [(1, 2); (1, 2)]%nat.

(** Two paths from 1 to 4, [comm] set, no relation. *)
Definition diamond_quiver : Quiver nat :=
  let G := add_edges new_quiver [(1, 2); (1, 3); (2, 4); (3, 4)]%nat in
  mkQuiver (nodes G) (edges G) (rel G) true (api G) (aii G) (ari G).







(** Three relations between paths that start at the vertex 1:
    (1,2) -> (1,3), (1,5) -> (1,2) and (1,2,4) -> (1,6,4).  A Python 2
    dict lists these three patterns in this order, whatever the order of
    the calls of [add_relation]. *)
Definition restart_quiver : Quiver nat :=
  add_relation
    (add_relation (add_relation new_quiver [1; 2]%nat [1; 3]%nat)
                  [1; 5]%nat [1; 2]%nat)
    [1; 2; 4]%nat [1; 6; 4]%nat.

Definition restart_p : list nat := [1; 5; 4]%nat.

(** C1 as stated, for [applyRelations(p)] on [G].  Let [r] be the first
    relation, in iteration order, whose pattern is found in the current
    path [ret], and [pos] the position where it is found.  The step by
    [r] replaces the matched region and nothing else; and the scan then
    restarts from the top of the relation set: whatever the loop returns
    from [ret], it returns when it is started on the path after the
    step. *)
Definition rewrites_then_restarts {N : Type} `{EqDec N} (G : Quiver N) (p : list N)
  : Prop :=
  forall ret pre r repl post pos,
    rel G = pre ++ (r, repl) :: post ->
    no_match ret pre ->
    findsublist ret r = Done pos -> 0 <= pos ->
    let ret' := splice ret (Z.to_nat pos) (length r) repl in
    scan_relations p [(r, repl)] ret true = Done (ret', false) /\
    forall q, (exists fuel, rewrite_loop fuel G p ret = Done q) ->
              exists fuel, rewrite_loop fuel G p ret' = Done q.

(** C6 as stated: the count is the number of walks of the multigraph. *)
Definition counts_multigraph_walks : Prop :=
  forall (G : Quiver nat) (fuel : nat) (s t : nat) (c : Z),
    acyclic G -> closed G -> rel G = [] -> In s (nodes G) -> In t (nodes G) ->
    countReducedPaths fuel G s t = Done c ->
    c = Z.of_nat (count_walks fuel G s t).

(** Levels of the vertices of [example_dag]: arrows go up. *)
Definition example_rank (v : nat) : nat :=
  match v with
  | 1 | 3 => 0
  | 2 | 4 | 6 => 1
  | _ => 2
  end%nat.

(** [example_quiver] after [all_proj_indecomp()], and the list in its
    cache. *)
Definition example_cached : Quiver nat :=
  Eval vm_compute in
    match all_proj_indecomp 5 example_quiver with
    | Done (G, _) => G
    | _ => example_quiver
    end.

Definition example_api : list vec :=
  Eval vm_compute in match api example_cached with Some c => c | None => [] end.

(** Two vertices with an arrow each way, and a third vertex. *)
Definition cycle_quiver : Quiver nat :=
  add_node (add_edges new_quiver [(1, 2); (2, 1)]%nat) 3%nat.

(** A set of vertices in which every vertex is different from [t] and has
    an arrow to a vertex of the set: from there one walks on for ever
    without meeting [t]. *)
Definition endless {N : Type} (G : Quiver N) (t : N) (C : N -> Prop) : Prop :=
  forall x, C x -> x <> t /\ exists y, C y /\ edge G x y.

(** None of the three caches is filled. *)
Definition uncached {N : Type} (G : Quiver N) : Prop :=
  cached (api G) = None /\ cached (aii G) = None /\ cached (ari G) = None.

(** Two vertices with an arrow each way. *)
Definition two_cycle : Quiver nat :=
  add_edges new_quiver [(1, 2); (2, 1)]%nat.

(** The state of the builder is well shaped: the nodes of the AR quiver
    are vectors with [n] components, its edges join nodes, and what is on
    the worklist is a node. *)
Definition well_shaped (n : nat) (st : Quiver vec * list vec) : Prop :=
  (forall x, In x (nodes (fst st)) -> length x = n) /\
  closed (fst st) /\
  incl (snd st) (nodes (fst st)).

(** [all_inj_indecomp] returns on [G], and leaves a quiver on which it
    returns the same again. *)
Definition inj_ready {N : Type} `{EqDec N} (fuel : nat) (G : Quiver N) : Prop :=
  exists G' c, all_inj_indecomp fuel G = Done (G', c) /\
               all_inj_indecomp fuel G' = Done (G', c).

(** * Properties *)

Unset Implicit Arguments.

(** ** Sequences and dicts *)

Lemma getitem_nonneg {A : Type} (l : list A) (k : Z) :
  0 <= k < Z.of_nat (length l) ->
  exists x, getitem l k = Done x /\ nth_error l (Z.to_nat k) = Some x.
Proof.
  intros Hk. unfold getitem.
  replace (k <? 0) with false by (symmetry; apply Z.ltb_ge; lia).
  replace (0 <=? k) with true by (symmetry; apply Z.leb_le; lia).
  replace (k <? Z.of_nat (length l)) with true by (symmetry; apply Z.ltb_lt; lia).
  simpl. destruct (nth_error l (Z.to_nat k)) as [x|] eqn:E.
  - now exists x.
  - apply nth_error_None in E. lia.
Qed.

Lemma getitem_negative {A : Type} (l : list A) (k : Z) :
  - Z.of_nat (length l) <= k < 0 ->
  exists x, getitem l k = Done x /\
            nth_error l (Z.to_nat (k + Z.of_nat (length l))) = Some x.
Proof.
  intros Hk. unfold getitem.
  replace (k <? 0) with true by (symmetry; apply Z.ltb_lt; lia).
  replace (0 <=? k + Z.of_nat (length l)) with true by (symmetry; apply Z.leb_le; lia).
  replace (k + Z.of_nat (length l) <? Z.of_nat (length l)) with true
    by (symmetry; apply Z.ltb_lt; lia).
  simpl. destruct (nth_error l (Z.to_nat (k + Z.of_nat (length l)))) as [x|] eqn:E.
  - now exists x.
  - apply nth_error_None in E. lia.
Qed.

Lemma dict_get_set {K V : Type} `{EqDec K} (d : dict K V) (k k' : K) (v dflt : V) :
  dict_get (dict_set d k v) k' dflt = if eq_dec k' k then v else dict_get d k' dflt.
Proof.
  induction d as [|[k0 v0] d IH]; simpl.
  - reflexivity.
  - destruct (eq_dec k k0) as [->|Hk]; simpl.
    + destruct (eq_dec k' k0); reflexivity.
    + destruct (eq_dec k' k0) as [->|Hk'].
      * destruct (eq_dec k0 k); congruence.
      * exact IH.
Qed.

Lemma occurs_at_match_at {A : Type} (needle haystack : list A) (p : nat) :
  occurs_at needle haystack p <-> match_at needle haystack (Z.of_nat p).
Proof.
  split.
  - intros (pre & post & -> & <-). repeat split.
    + lia.
    + rewrite !length_app. lia.
    + intros k Hk.
      replace (Z.to_nat (Z.of_nat (length pre) + k)) with (length pre + Z.to_nat k)%nat by lia.
      rewrite nth_error_app2 by lia.
      replace (length pre + Z.to_nat k - length pre)%nat with (Z.to_nat k) by lia.
      apply nth_error_app1. lia.
  - intros (_ & Hlen & Hk).
    exists (firstn p haystack), (skipn (p + length needle) haystack). split.
    + rewrite <- (firstn_skipn p haystack) at 1. f_equal.
      rewrite <- (firstn_skipn (length needle) (skipn p haystack)) at 1.
      rewrite skipn_skipn. rewrite (Nat.add_comm (length needle) p). f_equal.
      apply nth_error_ext. intros j.
      destruct (Nat.lt_ge_cases j (length needle)) as [Hj|Hj].
      * rewrite nth_error_firstn.
        replace (j <? length needle)%nat with true by (symmetry; apply Nat.ltb_lt; lia).
        rewrite nth_error_skipn.
        specialize (Hk (Z.of_nat j) ltac:(lia)).
        replace (Z.to_nat (Z.of_nat p + Z.of_nat j)) with (p + j)%nat in Hk by lia.
        rewrite Nat2Z.id in Hk. exact Hk.
      * rewrite (proj2 (nth_error_None needle j)) by lia.
        apply nth_error_None. rewrite length_firstn, length_skipn. lia.
    + rewrite length_firstn. lia.
Qed.

(** ** findsublist *)

Section FindSublistFacts.
Context {A : Type} `{EqDec A}.
Variables haystack needle : list A.

Let h := Z.of_nat (length haystack).
Let n := Z.of_nat (length needle).

Lemma build_skip_good (m a : nat) (d : dict A Z) :
  Z.of_nat a + Z.of_nat m = n - 1 ->
  (forall c, good_shift needle (Z.of_nat a) c (dict_get d c n)) ->
  exists d', build_skip needle n (map Z.of_nat (seq a m)) d = Done d' /\
             forall c, good_shift needle (n - 1) c (dict_get d' c n).
Proof.
  revert a d. induction m as [|m IH]; intros a d Ham Hd; simpl.
  - exists d. split; [reflexivity|]. intros c.
    replace (n - 1) with (Z.of_nat a) by lia. apply Hd.
  - destruct (getitem_nonneg needle (Z.of_nat a)) as (c0 & -> & Hc0); [fold n; lia|].
    simpl. apply IH; [lia|]. intros c. rewrite dict_get_set.
    destruct (Hd c) as [Hr Hk]. destruct (eq_dec c c0) as [->|Hne].
    + split; [lia|]. intros k Hk1 _. lia.
    + split; [exact Hr|]. intros k Hk1 Hk2.
      destruct (Z.eq_dec k (Z.of_nat a)) as [->|Hka].
      * congruence.
      * apply Hk; [lia|exact Hk2].
Qed.

Lemma skip_table_good :
  1 <= n ->
  exists d, skip_table needle = Done d /\
            forall c, good_shift needle (n - 1) c (dict_get d c n).
Proof.
  intros Hn. unfold skip_table, range. fold n.
  apply (build_skip_good (Z.to_nat (n - 1)) 0%nat []); [lia|].
  intros c. simpl. split; [lia|]. intros k Hk. lia.
Qed.

Lemma window_mismatch_spec (i : Z) (m a : nat) :
  n - 1 <= i < h ->
  Z.of_nat a + Z.of_nat m = n ->
  exists b, window_mismatch haystack needle i (map Z.of_nat (seq a m)) = Done b /\
    (b = false <->
     forall j, Z.of_nat a <= j < n ->
               nth_error haystack (Z.to_nat (i - j)) = nth_error needle (Z.to_nat (n - 1 - j))).
Proof.
  intros Hi. revert a. induction m as [|m IH]; intros a Ham; simpl.
  - exists false. split; [reflexivity|]. split; [|reflexivity]. intros _ j Hj. lia.
  - destruct (getitem_nonneg haystack (i - Z.of_nat a)) as (x & -> & Hx); [fold h; lia|].
    destruct (getitem_negative needle (- Z.of_nat a - 1)) as (y & -> & Hy); [fold n; lia|].
    fold n in Hy. replace (- Z.of_nat a - 1 + n) with (n - 1 - Z.of_nat a) in Hy by lia.
    simpl. destruct (eq_dec x y) as [->|Hxy].
    + destruct (IH (S a)) as (b & -> & Hb); [lia|]. exists b. split; [reflexivity|].
      rewrite Hb. split; intros Hall j Hj.
      * destruct (Z.eq_dec j (Z.of_nat a)) as [->|Hne]; [congruence|].
        apply Hall. lia.
      * apply Hall. lia.
    + exists true. split; [reflexivity|]. split; [discriminate|].
      intros Hall. specialize (Hall (Z.of_nat a) ltac:(lia)). congruence.
Qed.

Lemma window_mismatch_match_at (i : Z) :
  n - 1 <= i < h ->
  exists b, window_mismatch haystack needle i (range n) = Done b /\
            (b = false <-> match_at needle haystack (i - n + 1)).
Proof.
  intros Hi. unfold range.
  destruct (window_mismatch_spec i (Z.to_nat n) 0%nat Hi) as (b & Hb & Hiff); [lia|].
  exists b. split; [exact Hb|]. rewrite Hiff. unfold match_at. fold n h. split.
  - intros Hall. repeat split; try lia. intros k Hk.
    specialize (Hall (n - 1 - k) ltac:(lia)).
    replace (i - (n - 1 - k)) with (i - n + 1 + k) in Hall by lia.
    replace (n - 1 - (n - 1 - k)) with k in Hall by lia. exact Hall.
  - intros (_ & _ & Hall) j Hj. specialize (Hall (n - 1 - j) ltac:(lia)).
    replace (i - n + 1 + (n - 1 - j)) with (i - j) in Hall by lia. exact Hall.
Qed.

(** The loop: it returns; [-1] only when there is no occurrence, a
    position only when it is the start of the leftmost one. *)
Lemma bmh_loop_spec (d : dict A Z) :
  1 <= n ->
  (forall c, good_shift needle (n - 1) c (dict_get d c n)) ->
  forall (fuel : nat) (i : Z),
    n - 1 <= i ->
    (1 <= Z.of_nat fuel /\ h - i < Z.of_nat fuel) ->
    (forall q, q < i - n + 1 -> ~ match_at needle haystack q) ->
    exists r, bmh_loop fuel haystack needle d i = Done r /\
      ((r = -1 /\ forall q, ~ match_at needle haystack q) \/
       (match_at needle haystack r /\
        forall q, q < r -> ~ match_at needle haystack q)).
Proof.
  intros Hn Hd. induction fuel as [|fuel IH]; intros i Hi Hfuel Hinv; [lia|].
  simpl. fold h n. destruct (Z.ltb_spec i h) as [Hlt|Hge].
  - destruct (window_mismatch_match_at i) as (b & -> & Hb); [lia|].
    simpl. destruct b.
    + destruct (getitem_nonneg haystack i) as (c & -> & Hc); [fold h; lia|]. simpl.
      destruct (Hd c) as [Hs Hk]. apply IH; [lia|lia|].
      intros q Hq Hm.
      destruct (Z.lt_ge_cases q (i - n + 1)) as [Hq1|Hq1]; [exact (Hinv q Hq1 Hm)|].
      destruct (Z.eq_dec q (i - n + 1)) as [->|Hq2].
      * apply Hb in Hm. discriminate.
      * destruct Hm as (Hq0 & Hqh & Hall). fold n h in Hqh, Hall.
        specialize (Hall (i - q) ltac:(lia)).
        replace (q + (i - q)) with i in Hall by lia. rewrite Hc in Hall.
        symmetry in Hall. apply Hk in Hall; lia.
    + exists (i - n + 1). split; [reflexivity|]. right.
      split; [apply Hb; reflexivity|exact Hinv].
  - exists (-1). split; [reflexivity|]. left. split; [reflexivity|].
    intros q Hm. destruct (Z.lt_ge_cases q (i - n + 1)) as [Hq1|Hq1].
    + exact (Hinv q Hq1 Hm).
    + destruct Hm as (_ & Hqh & _). fold n h in Hqh. lia.
Qed.

Lemma findsublist_spec :
  exists r, findsublist haystack needle = Done r /\
    ((r = -1 /\ forall q, ~ match_at needle haystack q) \/
     (match_at needle haystack r /\ forall q, q < r -> ~ match_at needle haystack q)).
Proof.
  destruct (Z.lt_ge_cases n 1) as [Hn|Hn].
  - assert (needle = []) as Hnil by (destruct needle; [reflexivity|simpl in n; lia]).
    clear Hn. subst needle. exists 0. split.
    + unfold findsublist. simpl.
      destruct (Z.ltb_spec (-1) (Z.of_nat (length haystack))); [reflexivity|lia].
    + right. split.
      * unfold match_at. simpl. repeat split; lia.
      * intros q Hq (Hq0 & _). lia.
  - destruct (skip_table_good Hn) as (d & Hd & Hgood).
    unfold findsublist. rewrite Hd. cbn [bind]. fold n.
    apply (bmh_loop_spec d Hn Hgood); [lia|fold h; lia|].
    intros q Hq (Hq0 & _). lia.
Qed.

(** [findsublist] never raises and never runs out of rounds. *)
Lemma findsublist_returns :
  exists r, findsublist haystack needle = Done r /\ -1 <= r.
Proof.
  destruct findsublist_spec as (r & Hr & [[Hm _]|[(Hq & _) _]]);
    exists r; (split; [exact Hr|lia]).
Qed.

End FindSublistFacts.

(** C7.  For a non-empty needle, [findsublist] returns; when it returns a
    position [r >= 0] the needle occurs in the haystack starting at [r],
    and when it returns [-1] the needle occurs nowhere in the haystack. *)
Theorem findsublist_correct {A : Type} `{EqDec A} (haystack needle : list A) :
  needle <> [] ->
  exists r, findsublist haystack needle = Done r /\
    ((r = -1 /\ forall p, ~ occurs_at needle haystack p) \/
     (0 <= r /\ occurs_at needle haystack (Z.to_nat r))).
Proof.
  intros _. destruct (findsublist_spec haystack needle) as (r & Hr & Hcases).
  exists r. split; [exact Hr|]. destruct Hcases as [[-> Hno]|[Hm _]].
  - left. split; [reflexivity|]. intros p Hp.
    apply (Hno (Z.of_nat p)). now apply occurs_at_match_at.
  - right. assert (0 <= r) as Hr0 by (destruct Hm; assumption).
    split; [exact Hr0|]. apply occurs_at_match_at. now rewrite Z2Nat.id.
Qed.

Lemma findsublist_correct_witness :
  [2; 5]%nat <> [] /\
  exists r, findsublist [1; 2; 5]%nat [2; 5]%nat = Done r /\
    ((r = -1 /\ forall p, ~ occurs_at [2; 5]%nat [1; 2; 5]%nat p) \/
     (0 <= r /\ occurs_at [2; 5]%nat [1; 2; 5]%nat (Z.to_nat r))).
Proof.
  split; [discriminate|].
  apply (findsublist_correct [1; 2; 5]%nat [2; 5]%nat). discriminate.
Defined.

(** A negative answer of [findsublist] means no occurrence, whatever the
    needle (for the empty needle the answer is 0). *)
Lemma findsublist_negative {A : Type} `{EqDec A} (haystack needle : list A) (pos : Z) :
  findsublist haystack needle = Done pos -> pos < 0 ->
  forall p, ~ occurs_at needle haystack p.
Proof.
  intros Hpos Hneg p Hp.
  destruct (findsublist_spec haystack needle) as (r & Hr & Hcases).
  rewrite Hpos in Hr. injection Hr as <-.
  destruct Hcases as [[_ Hno]|[(Hq & _) _]]; [|lia].
  apply (Hno (Z.of_nat p)). now apply occurs_at_match_at.
Qed.

(** ** applyRelations *)

Section ApplyRelationsFacts.
Context {N : Type} `{EqDec N}.

Lemma scan_relations_false (p : list N) rs ret ret' stop' :
  scan_relations p rs ret false = Done (ret', stop') -> stop' = false.
Proof.
  revert ret. induction rs as [|[r repl] rs IH]; intros ret; simpl.
  - now intros [= _ <-].
  - destruct (findsublist ret r) as [pos| |]; simpl; try discriminate.
    destruct (0 <=? pos); apply IH.
Qed.

Lemma scan_relations_clean (p : list N) rs ret ret' :
  scan_relations p rs ret true = Done (ret', true) ->
  ret' = ret /\ no_match ret rs.
Proof.
  induction rs as [|[r repl] rs IH]; simpl.
  - intros [= <-]. split; [reflexivity|constructor].
  - destruct (findsublist ret r) as [pos| |] eqn:E; simpl; try discriminate.
    destruct (Z.leb_spec 0 pos) as [Hpos|Hpos].
    + intros Hs. apply scan_relations_false in Hs. discriminate.
    + intros Hs. destruct (IH Hs) as [-> Hno]. split; [reflexivity|].
      constructor; [|exact Hno]. exists pos. now split.
Qed.

Lemma scan_relations_no_match (p : list N) rs ret stop :
  no_match ret rs -> scan_relations p rs ret stop = Done (ret, stop).
Proof.
  induction 1 as [|[r repl] rs (pos & Hpos & Hneg) _ IH]; simpl; [reflexivity|].
  simpl in Hpos. rewrite Hpos. simpl.
  destruct (Z.leb_spec 0 pos); [lia|exact IH].
Qed.

(** The loop ends only after a pass in which nothing matched. *)
Lemma rewrite_loop_clean (fuel : nat) (G : Quiver N) (p ret q : list N) :
  rewrite_loop fuel G p ret = Done q -> no_match q (rel G).
Proof.
  revert ret. induction fuel as [|fuel IH]; intros ret; simpl; [discriminate|].
  destruct (scan_relations p (rel G) ret true) as [[ret' stop]| |] eqn:E;
    simpl; try discriminate.
  destruct stop.
  - intros [= <-]. apply scan_relations_clean in E. destruct E as [-> Hno]. exact Hno.
  - apply IH.
Qed.

(** C2.  When [applyRelations] returns, no stored pattern occurs in the
    returned path as a contiguous sub-sequence. *)
Theorem applyRelations_fixpoint (fuel : nat) (G : Quiver N) (p q : list N) :
  applyRelations fuel G p = Done q ->
  forall r repl pos, In (r, repl) (rel G) -> ~ occurs_at r q pos.
Proof.
  intros Hq r repl pos Hin. apply rewrite_loop_clean in Hq.
  unfold no_match in Hq. rewrite Forall_forall in Hq.
  destruct (Hq _ Hin) as (pos' & Hpos' & Hneg). simpl in Hpos'.
  exact (findsublist_negative q r pos' Hpos' Hneg pos).
Qed.

(** C9.  When [applyRelations] returns a path, applying it to that path
    returns the path unchanged (as soon as one pass of the loop is
    allowed). *)
Theorem applyRelations_idempotent (fuel : nat) (G : Quiver N) (p q : list N) :
  applyRelations fuel G p = Done q ->
  forall fuel', (0 < fuel')%nat -> applyRelations fuel' G q = Done q.
Proof.
  intros Hq fuel' Hfuel. apply rewrite_loop_clean in Hq.
  destruct fuel' as [|fuel']; [lia|].
  unfold applyRelations. simpl.
  now rewrite (scan_relations_no_match q (rel G) q true Hq).
Qed.

(** C1, as the code has it.  When the first relation (in iteration
    order) whose pattern is found in the current path [ret] has it at
    position 0, and the argument [p] and [ret] agree behind the match (as
    they do while [ret] is still [p]), the pass goes on with [ret]
    changed in the matched region only, and with the relations after the
    matching one, not from the top; the loop then makes another pass
    over all relations. *)
Theorem scan_relations_first_match (p ret r repl : list N) pre post (stop : bool) :
  no_match ret pre ->
  findsublist ret r = Done 0 ->
  slice_from p (Z.of_nat (length r)) = slice_from ret (Z.of_nat (length r)) ->
  scan_relations p (pre ++ (r, repl) :: post) ret stop =
    scan_relations p post (splice ret 0 (length r) repl) false /\
  forall fuel G ret' stop',
    rel G = pre ++ (r, repl) :: post ->
    scan_relations p post (splice ret 0 (length r) repl) false = Done (ret', stop') ->
    rewrite_loop (S fuel) G p ret = rewrite_loop fuel G p ret'.
Proof.
  intros Hpre Hr Hsuffix.
  assert (forall stop0, scan_relations p (pre ++ (r, repl) :: post) ret stop0 =
            scan_relations p post (splice ret 0 (length r) repl) false) as Hscan.
  { intros stop0. induction Hpre as [|[r0 repl0] pre (pos & Hpos & Hneg) _ IH]; simpl.
    - rewrite Hr. simpl. unfold splice. simpl. rewrite Hsuffix.
      unfold slice_from. now rewrite Nat2Z.id.
    - simpl in Hpos. rewrite Hpos. simpl.
      destruct (Z.leb_spec 0 pos); [lia|exact IH]. }
  split; [apply Hscan|].
  intros fuel G ret' stop' HG Hrest. simpl. rewrite HG, Hscan, Hrest. simpl.
  now rewrite (scan_relations_false _ _ _ _ _ Hrest).
Qed.

End ApplyRelationsFacts.

(** ** countReducedPaths on a commutative quiver *)

(** C3.  On a quiver whose [comm] flag is set, [countReducedPaths]
    returns 1 when there is at least one reduced path from [s] to [t] and
    0 when there is none; it never returns anything else. *)
Theorem countReducedPaths_comm {N : Type} `{EqDec N}
        (fuel : nat) (G : Quiver N) (s t : N) :
  comm G = true ->
  (forall l, listReducedPaths fuel G s t = Done l ->
             countReducedPaths fuel G s t = Done (match l with [] => 0 | _ :: _ => 1 end)) /\
  (forall c, countReducedPaths fuel G s t = Done c ->
             (c = 0 \/ c = 1) /\
             exists l, listReducedPaths fuel G s t = Done l /\ (c = 1 <-> l <> [])).
Proof.
  intros Hcomm. unfold countReducedPaths. rewrite Hcomm. split.
  - intros l ->. simpl. destruct l; reflexivity.
  - intros c. destruct (listReducedPaths fuel G s t) as [l| |]; simpl; try discriminate.
    destruct l as [|a l]; simpl.
    + intros [= <-]. split; [now left|]. exists []. split; [reflexivity|].
      split; [discriminate|congruence].
    + intros [= <-]. split; [now right|]. exists (a :: l). split; [reflexivity|].
      split; [discriminate|reflexivity].
Qed.

(** ** arQuiver *)

(** C10.  On a source quiver without vertices [arQuiver] does not return
    an AR quiver: the seed loop adds nothing, and removing the zero vector
    (the empty tuple) from the empty AR quiver raises [NetworkXError]. *)
Theorem arQuiver_no_vertices {N : Type} `{EqDec N} (fuel : nat) (G : Quiver N) :
  nodes G = [] -> arQuiver fuel G = Raise NetworkXError.
Proof.
  intros Hnodes. unfold arQuiver, seed, zeros. rewrite Hnodes. reflexivity.
Qed.

Lemma arQuiver_no_vertices_witness :
  nodes (@new_quiver nat) = [] /\ arQuiver 5 (@new_quiver nat) = Raise NetworkXError.
Proof.
  split; [reflexivity|]. apply (arQuiver_no_vertices 5 (@new_quiver nat)). reflexivity.
Defined.

Lemma mapM_Forall {A B : Type} (f : A -> outcome B) (P : B -> Prop) (l : list A) r :
  (forall a b, f a = Done b -> P b) ->
  mapM f l = Done r -> Forall P r.
Proof.
  intros Hf. revert r. induction l as [|a l IH]; simpl; intros r.
  - intros [= <-]. constructor.
  - destruct (f a) as [b| |] eqn:E; simpl; try discriminate.
    destruct (mapM f l) as [bs| |]; simpl; try discriminate.
    intros [= <-]. constructor; [exact (Hf a b E)|now apply IH].
Qed.

Lemma getitem_In {A : Type} (l : list A) (k : Z) (x : A) :
  getitem l k = Done x -> In x l.
Proof.
  unfold getitem.
  destruct ((0 <=? (if k <? 0 then k + Z.of_nat (length l) else k))
            && ((if k <? 0 then k + Z.of_nat (length l) else k) <? Z.of_nat (length l)));
    [|discriminate].
  destruct (nth_error l _) as [a|] eqn:E; [|discriminate].
  intros [= <-]. exact (nth_error_In _ _ E).
Qed.

Lemma mem_In {A : Type} `{EqDec A} (x : A) (l : list A) : mem x l = true <-> In x l.
Proof.
  unfold mem. rewrite existsb_exists. split.
  - intros (y & Hy & Heq). unfold eqb in Heq. destruct (eq_dec x y); [now subst|discriminate].
  - intros Hin. exists x. split; [exact Hin|]. unfold eqb. destruct (eq_dec x x); congruence.
Qed.

Lemma dedup_In {A : Type} `{EqDec A} (x : A) (l : list A) : In x (dedup l) <-> In x l.
Proof.
  induction l as [|a l IH]; simpl; [reflexivity|].
  rewrite filter_In, IH. unfold eqb. split.
  - intros [->|[Hin _]]; auto.
  - intros [->|Hin]; [now left|]. destruct (eq_dec x a) as [->|Hne]; [now left|].
    right. split; [exact Hin|]. destruct (eq_dec x a); [contradiction|reflexivity].
Qed.

Section NonNegative.
Context {N : Type} `{EqDec N}.

Lemma countReducedPaths_nonneg (fuel : nat) (G : Quiver N) (s t : N) (c : Z) :
  countReducedPaths fuel G s t = Done c -> 0 <= c.
Proof.
  unfold countReducedPaths.
  destruct (listReducedPaths fuel G s t) as [l| |]; simpl; try discriminate.
  destruct (comm G).
  - destruct (Z.of_nat (length l) =? 0); intros [= <-]; lia.
  - intros [= <-]. lia.
Qed.

Lemma cached_Some (c : option (list vec)) (l : list vec) :
  cached c = Some l -> c = Some l.
Proof. destruct c as [[|x c]|]; simpl; congruence. Qed.

Lemma proj_indecomp_nonneg (fuel : nat) (G : Quiver N) (v : N) (pj : vec) :
  api_nonneg G -> proj_indecomp fuel G v = Done pj -> nonneg pj.
Proof.
  intros Hapi. unfold proj_indecomp. destruct (cached (api G)) as [c|] eqn:Ec.
  - apply cached_Some in Ec. unfold api_nonneg in Hapi. rewrite Ec in Hapi.
    destruct (index_of (nodes G) v) as [i| |]; simpl; try discriminate.
    intros Hget. apply getitem_In in Hget. rewrite Forall_forall in Hapi. now apply Hapi.
  - apply mapM_Forall. intros w c. apply countReducedPaths_nonneg.
Qed.

(** The invariant on the cache is kept by the methods of the class. *)
Lemma api_nonneg_new : api_nonneg (@new_quiver N).
Proof. exact I. Qed.

Lemma api_nonneg_add_node (G : Quiver N) (n : N) :
  api_nonneg G -> api_nonneg (add_node G n).
Proof. unfold add_node. now destruct (mem n (nodes G)). Qed.

Lemma api_nonneg_add_edge (G : Quiver N) (u v : N) :
  api_nonneg G -> api_nonneg (add_edge G u v).
Proof.
  intros HG. unfold add_edge, api_nonneg. simpl.
  exact (api_nonneg_add_node _ v (api_nonneg_add_node _ u HG)).
Qed.

Lemma api_nonneg_add_relation (G : Quiver N) (p0 p1 : list N) :
  api_nonneg G -> api_nonneg (add_relation G p0 p1).
Proof. exact (fun HG => HG). Qed.

Lemma api_nonneg_remove_node (G G' : Quiver N) (n : N) :
  api_nonneg G -> remove_node G n = Done G' -> api_nonneg G'.
Proof.
  intros HG. unfold remove_node. destruct (mem n (nodes G)); [|discriminate].
  now intros [= <-].
Qed.

Lemma api_nonneg_all_proj_indecomp (fuel : nat) (G G' : Quiver N) (c : list vec) :
  api_nonneg G -> all_proj_indecomp fuel G = Done (G', c) -> api_nonneg G'.
Proof.
  intros HG. unfold all_proj_indecomp. destruct (cached (api G)) as [c0|].
  - now intros [= <- _].
  - destruct (mapM (proj_indecomp fuel G) (nodes G)) as [c1| |] eqn:E;
      simpl; try discriminate.
    intros [= <- _]. unfold api_nonneg. simpl.
    revert E. apply mapM_Forall. intros v pj. now apply proj_indecomp_nonneg.
Qed.

Lemma api_nonneg_all_rad_indecomp (fuel : nat) (G G' : Quiver N) (c : list vec) :
  api_nonneg G -> all_rad_indecomp fuel G = Done (G', c) -> api_nonneg G'.
Proof.
  intros HG. unfold all_rad_indecomp. destruct (cached (ari G)) as [c0|].
  - now intros [= <- _].
  - destruct (mapM (radical_proj fuel G) (nodes G)) as [c1| |]; simpl; try discriminate.
    now intros [= <- _].
Qed.

Lemma api_nonneg_all_inj_indecomp (fuel : nat) (G G' : Quiver N) (c : list vec) :
  api_nonneg G -> all_inj_indecomp fuel G = Done (G', c) -> api_nonneg G'.
Proof.
  intros HG. unfold all_inj_indecomp. destruct (cached (aii G)) as [c0|].
  - now intros [= <- _].
  - destruct (mapM (inj_indecomp fuel G) (nodes G)) as [c1| |]; simpl; try discriminate.
    now intros [= <- _].
Qed.

End NonNegative.

Lemma foldM_invariant {A S : Type} (f : S -> A -> outcome S) (Inv : S -> Prop)
      (l : list A) (s s' : S) :
  (forall s0 a s1, Inv s0 -> f s0 a = Done s1 -> Inv s1) ->
  Inv s -> foldM f l s = Done s' -> Inv s'.
Proof.
  intros Hf. revert s. induction l as [|a l IH]; simpl; intros s Hs.
  - now intros [= <-].
  - destruct (f s a) as [s1| |] eqn:E; simpl; try discriminate.
    apply IH. exact (Hf s a s1 Hs E).
Qed.

Lemma no_negative_nonneg (w : vec) :
  existsb (fun wv => wv <? 0) w = false <-> nonneg w.
Proof.
  unfold nonneg. rewrite Forall_forall. split.
  - intros Hex x Hx. destruct (Z.lt_ge_cases x 0) as [Hlt|Hge]; [|exact Hge].
    assert (existsb (fun wv => wv <? 0) w = true) as Habs
        by (apply existsb_exists; exists x; split; [exact Hx|now apply Z.ltb_lt]).
    congruence.
  - intros Hall. destruct (existsb (fun wv => wv <? 0) w) eqn:E; [|reflexivity].
    apply existsb_exists in E. destruct E as (x & Hx & Hlt).
    apply Z.ltb_lt in Hlt. specialize (Hall x Hx). lia.
Qed.

Section WorklistInvariant.

Lemma edges_add_node {M : Type} `{EqDec M} (G : Quiver M) (n : M) :
  edges (add_node G n) = edges G.
Proof. unfold add_node. now destruct (mem n (nodes G)). Qed.

Lemma edges_add_edge {M : Type} `{EqDec M} (G : Quiver M) (u v : M) :
  edges (add_edge G u v) = edges G ++ [(u, v)].
Proof. unfold add_edge. simpl. now rewrite !edges_add_node. Qed.

Lemma successors_edge {M : Type} `{EqDec M} (G : Quiver M) (n : M) (ss : list M) :
  successors G n = Done ss -> forall s, In s ss <-> In (n, s) (edges G).
Proof.
  unfold successors. destruct (mem n (nodes G)); [|discriminate].
  intros [= <-] s. rewrite dedup_In, in_map_iff. split.
  - intros ([u v] & Hv & Hin). simpl in Hv. subst v. apply filter_In in Hin.
    destruct Hin as [Hin Heq]. simpl in Heq. unfold eqb in Heq.
    destruct (eq_dec u n); [now subst|discriminate].
  - intros Hin. exists (n, s). split; [reflexivity|]. apply filter_In.
    split; [exact Hin|]. simpl. unfold eqb. destruct (eq_dec n n); congruence.
Qed.

Lemma targets_nonneg_add_node (ar : Quiver vec) (n : vec) :
  targets_nonneg ar -> targets_nonneg (add_node ar n).
Proof. unfold targets_nonneg. now rewrite edges_add_node. Qed.

Lemma targets_nonneg_add_edge (ar : Quiver vec) (u v : vec) :
  targets_nonneg ar -> nonneg v -> targets_nonneg (add_edge ar u v).
Proof.
  unfold targets_nonneg. rewrite edges_add_edge. intros Har Hv u' v' Hin.
  apply in_app_or in Hin. destruct Hin as [Hin|[[= <- <-]|[]]]; [|exact Hv].
  exact (Har u' v' Hin).
Qed.

Lemma targets_nonneg_remove_node (ar ar' : Quiver vec) (n : vec) :
  targets_nonneg ar -> remove_node ar n = Done ar' -> targets_nonneg ar'.
Proof.
  unfold targets_nonneg, remove_node. intros Har.
  destruct (mem n (nodes ar)); [|discriminate]. intros [= <-] u v Hin. simpl in Hin.
  apply filter_In in Hin. exact (Har u v (proj1 Hin)).
Qed.

Context {N : Type} `{EqDec N}.

Lemma seed_step_inv (fuel : nat) (G : Quiver N) st v st' :
  api_nonneg G -> builder_inv st -> seed_step fuel G st v = Done st' -> builder_inv st'.
Proof.
  intros Hapi [Har Htodo]. destruct st as [ar todo]. simpl in Har, Htodo.
  unfold seed_step.
  destruct (radical_proj fuel G v) as [r| |]; simpl; try discriminate.
  destruct (proj_indecomp fuel G v) as [pj| |] eqn:Epj; simpl; try discriminate.
  destruct (inj_indecomp fuel G v) as [ij| |]; simpl; try discriminate.
  assert (nonneg pj) as Hpj by exact (proj_indecomp_nonneg fuel G v pj Hapi Epj).
  assert (targets_nonneg (add_node (add_edge ar r pj) ij)) as Har'
      by (apply targets_nonneg_add_node, targets_nonneg_add_edge; assumption).
  destruct (isSimple pj); intros [= <-]; split; simpl; try assumption.
  apply Forall_app. split; [exact Htodo|]. constructor; [exact Hpj|constructor].
Qed.

Lemma seed_inv (fuel : nat) (G : Quiver N) ar todo :
  api_nonneg G -> seed fuel G = Done (ar, todo) -> builder_inv (ar, todo).
Proof.
  intros Hapi. unfold seed.
  destruct (foldM (seed_step fuel G) (nodes G) (new_quiver, [])) as [[ar0 todo0]| |] eqn:E;
    simpl; try discriminate.
  assert (builder_inv (ar0, todo0)) as [Har Htodo].
  { apply (foldM_invariant (seed_step fuel G) builder_inv (nodes G) (new_quiver, [])).
    - intros s0 a s1. now apply seed_step_inv.
    - split; simpl; [intros u v []|constructor].
    - exact E. }
  destruct (remove_node ar0 (zeros G)) as [ar1| |] eqn:Er; simpl; try discriminate.
  intros [= <- <-]. split; simpl; [|exact Htodo].
  exact (targets_nonneg_remove_node ar0 ar1 (zeros G) Har Er).
Qed.

Lemma link_successors_inv (w : vec) (ss : list vec) st :
  nonneg w -> Forall nonneg ss -> builder_inv st ->
  builder_inv (fold_left (link_successor w) ss st).
Proof.
  intros Hw Hss. revert st. induction Hss as [|s ss Hs _ IH]; intros st Hst; simpl.
  - exact Hst.
  - apply IH. destruct st as [ar todo]. destruct Hst as [Har Htodo]. simpl in *.
    split; simpl.
    + now apply targets_nonneg_add_edge.
    + destruct (mem s todo); [exact Htodo|].
      apply Forall_app. split; [exact Htodo|]. constructor; [exact Hs|constructor].
Qed.

Lemma worklist_round_inv (fuel : nat) (G G' : Quiver N) ar todo ar' todo' :
  builder_inv (ar, todo) ->
  worklist_round fuel G ar todo = Done (Next G' ar' todo') ->
  builder_inv (ar', todo').
Proof.
  intros [Har Htodo]. simpl in Har, Htodo. unfold worklist_round.
  destruct todo as [|p rest]; [discriminate|].
  apply Forall_cons_iff in Htodo. destruct Htodo as [Hp Hrest].
  destruct (rule_A fuel G p) as [[G1 skip]| |]; simpl; try discriminate.
  destruct skip.
  { intros [= _ <- <-]. now split. }
  destruct (successors ar p) as [ss| |] eqn:Ess; simpl; try discriminate.
  destruct (candidate ss p) as [w| |]; simpl; try discriminate.
  destruct (existsb (fun wv => wv <? 0) w) eqn:Eneg.
  { intros [= _ <- <-]. now split. }
  destruct (existsb (fun wv => 7 <=? wv) w); [discriminate|].
  destruct (fold_left (link_successor w) ss (ar, rest)) as [ar1 todo1] eqn:Efold.
  intros [= _ <- <-]. rewrite <- Efold. apply link_successors_inv.
  - now apply no_negative_nonneg.
  - apply Forall_forall. intros s Hs.
    apply (successors_edge ar p ss Ess) in Hs. exact (Har p s Hs).
  - now split.
Qed.

Lemma after_rounds_inv (fuel k : nat) (G G' : Quiver N) ar todo ar' todo' :
  builder_inv (ar, todo) ->
  after_rounds k fuel G ar todo = Done (Next G' ar' todo') ->
  builder_inv (ar', todo').
Proof.
  revert G ar todo. induction k as [|k IH]; intros G ar todo Hinv; simpl.
  - now intros [= _ <- <-].
  - destruct (worklist_round fuel G ar todo) as [[G1 ar1 todo1|ar1]| |] eqn:E;
      simpl; try discriminate.
    apply IH. exact (worklist_round_inv fuel G G1 ar todo ar1 todo1 Hinv E).
Qed.

(** C8.  No vector with a negative component is ever on the worklist:
    neither after the seed phase nor after any number of rounds of the
    worklist phase (everything enqueued in a round is on the worklist at
    the end of that round). *)
Theorem enqueued_nonneg (fuel : nat) (G : Quiver N) ar todo :
  api_nonneg G ->
  seed fuel G = Done (ar, todo) ->
  Forall nonneg todo /\
  forall k G' ar' todo',
    after_rounds k fuel G ar todo = Done (Next G' ar' todo') -> Forall nonneg todo'.
Proof.
  intros Hapi Hseed. pose proof (seed_inv fuel G ar todo Hapi Hseed) as Hinv.
  split; [exact (proj2 Hinv)|]. intros k G' ar' todo' Hk.
  exact (proj2 (after_rounds_inv fuel k G G' ar todo ar' todo' Hinv Hk)).
Qed.


End WorklistInvariant.

(** ** Counting paths in an acyclic quiver without relations *)

Lemma dedup_NoDup {A : Type} `{EqDec A} (l : list A) : NoDup (dedup l).
Proof.
  induction l as [|a l IH]; simpl; constructor.
  - rewrite filter_In. intros [_ Hne]. unfold eqb in Hne.
    destruct (eq_dec a a); [discriminate|congruence].
  - now apply NoDup_filter.
Qed.

Lemma dedup_id {A : Type} `{EqDec A} (l : list A) : NoDup l -> dedup l = l.
Proof.
  induction 1 as [|a l Ha _ IH]; simpl; [reflexivity|]. rewrite IH. f_equal.
  clear IH. induction l as [|b l IHl]; simpl; [reflexivity|].
  unfold eqb at 1. destruct (eq_dec b a) as [->|Hne].
  - exfalso. apply Ha. now left.
  - simpl. f_equal. apply IHl. intros Hin. apply Ha. now right.
Qed.

Lemma acyclic_by_rank {N : Type} (G : Quiver N) (rank : N -> nat) :
  (forall u v, edge G u v -> (rank u < rank v)%nat) -> acyclic G.
Proof.
  intros Hrank v Hv.
  assert (forall a b, clos_trans N (edge G) a b -> (rank a < rank b)%nat) as Hlt.
  { induction 1 as [a b Hab|a b c _ IH1 _ IH2]; [now apply Hrank|lia]. }
  specialize (Hlt v v Hv). lia.
Qed.

Section PathCounting.
Context {N : Type} `{EqDec N}.
Variable G : Quiver N.
Hypothesis Hacyclic : acyclic G.
Hypothesis Hclosed : closed G.

Lemma walk_head (u t : N) (p : list N) :
  walk G u t p -> exists p', p = u :: p'.
Proof. intros [t0|s0 u0 t0 p0 _ _]; eauto. Qed.

Lemma walk_reaches (u t : N) (p : list N) :
  walk G u t p -> u = t \/ clos_trans N (edge G) u t.
Proof.
  induction 1 as [t|s u t p He _ [->|IH]]; [now left|right..].
  - now apply t_step.
  - apply t_trans with u; [now apply t_step|exact IH].
Qed.

Lemma walk_loop (t : N) (p : list N) : walk G t t p -> p = [t].
Proof.
  intros Hw. inversion Hw as [|s u t0 p0 He Hw0]; subst; [reflexivity|].
  exfalso. apply (Hacyclic t). destruct (walk_reaches _ _ _ Hw0) as [->|Hc].
  - now apply t_step.
  - apply t_trans with u; [now apply t_step|exact Hc].
Qed.

(** The paths through the successors in [l], each with [s] put in front. *)
Lemma extend_paths (fuel : nat) (s t : N) (l : list N) :
  NoDup l ->
  (forall u, In u l ->
     exists ps, listPaths fuel G u t = Done ps /\ NoDup ps /\
                forall p, In p ps <-> walk G u t p) ->
  exists r,
    flat_mapM (fun ss => ps <- listPaths fuel G ss t ;; Done (map (cons s) ps)) l = Done r /\
    NoDup r /\
    forall p, In p r <-> exists u p', In u l /\ p = s :: p' /\ walk G u t p'.
Proof.
  induction 1 as [|a l Ha Hl IH]; intros Hall; simpl.
  - exists []. split; [reflexivity|]. split; [constructor|].
    intros p. split; [intros []|intros (u & p' & [] & _)].
  - destruct (Hall a (or_introl eq_refl)) as (ps & -> & Hps & Hwalk). simpl.
    destruct IH as (r & -> & Hr & Hin); [intros u Hu; apply Hall; now right|]. simpl.
    exists (map (cons s) ps ++ r). split; [reflexivity|]. split.
    + apply NoDup_app.
      * apply Injective_map_NoDup; [|exact Hps]. intros x y [= ->]. reflexivity.
      * exact Hr.
      * intros p Hp1 Hp2. apply in_map_iff in Hp1. destruct Hp1 as (p1 & <- & Hp1).
        apply Hin in Hp2. destruct Hp2 as (u & p' & Hu & [= ->] & Hw).
        apply Hwalk in Hp1. destruct (walk_head _ _ _ Hp1) as (q1 & ->).
        destruct (walk_head _ _ _ Hw) as (q2 & [= ->]). contradiction.
    + intros p. rewrite in_app_iff, in_map_iff, Hin. split.
      * intros [(p' & <- & Hp')|(u & p' & Hu & -> & Hw)].
        -- exists a, p'. split; [now left|]. split; [reflexivity|now apply Hwalk].
        -- exists u, p'. split; [now right|]. now split.
      * intros (u & p' & [<-|Hu] & -> & Hw).
        -- left. exists p'. split; [reflexivity|now apply Hwalk].
        -- right. exists u, p'. now repeat split.
Qed.

(** [listPaths] returns on an acyclic quiver, with the walks from [s] to
    [t], each once.  [vis] are the vertices on the way to [s]. *)
Lemma listPaths_walks (fuel : nat) (t : N) :
  forall (s : N) (vis : list N),
    In s (nodes G) -> NoDup vis -> incl vis (nodes G) ->
    (forall x, In x vis -> clos_trans N (edge G) x s) ->
    (length (nodes G) < fuel + length vis)%nat ->
    exists ps, listPaths fuel G s t = Done ps /\ NoDup ps /\
               forall p, In p ps <-> walk G s t p.
Proof.
  induction fuel as [|fuel IH]; intros s vis Hs Hvis Hincl Hreach Hfuel.
  - exfalso. assert (NoDup (s :: vis)) as Hnd.
    { constructor; [|exact Hvis]. intros Hin. exact (Hacyclic s (Hreach s Hin)). }
    assert (incl (s :: vis) (nodes G)) as Hinc by (intros x [<-|Hx]; auto).
    pose proof (NoDup_incl_length Hnd Hinc) as Hlen. simpl in Hlen, Hfuel. lia.
  - simpl. destruct (eq_dec s t) as [->|Hst].
    + exists [[t]]. split; [reflexivity|]. split; [repeat constructor; intros []|].
      intros p. split.
      * intros [<-|[]]. constructor.
      * intros Hw. left. symmetry. now apply walk_loop.
    + destruct (successors G s) as [sss| |] eqn:Esucc;
        try (unfold successors in Esucc;
             rewrite (proj2 (mem_In s (nodes G)) Hs) in Esucc; discriminate).
      pose proof (successors_edge G s sss Esucc) as Hsss. simpl.
      assert (NoDup sss) as Hnd.
      { unfold successors in Esucc. destruct (mem s (nodes G)); [|discriminate].
        injection Esucc as <-. apply dedup_NoDup. }
      destruct (extend_paths fuel s t sss Hnd) as (r & -> & Hr & Hin).
      { intros u Hu. apply Hsss in Hu. apply (IH u (s :: vis)).
        - exact (proj2 (Hclosed s u Hu)).
        - constructor; [|exact Hvis]. intros Hin. exact (Hacyclic s (Hreach s Hin)).
        - intros x [<-|Hx]; auto.
        - intros x [<-|Hx]; [now apply t_step|].
          apply t_trans with s; [now apply Hreach|now apply t_step].
        - simpl. lia. }
      exists r. split; [reflexivity|]. split; [exact Hr|].
      intros p. rewrite Hin. split.
      * intros (u & p' & Hu & -> & Hw). apply walk_step with u; [now apply Hsss|exact Hw].
      * intros Hw. inversion Hw as [|s0 u t0 p0 He Hw0]; subst; [congruence|].
        exists u, p0. split; [now apply Hsss|now split].
Qed.

Lemma applyRelations_no_relations (fuel : nat) (p : list N) :
  rel G = [] -> applyRelations (S fuel) G p = Done p.
Proof. intros Hrel. unfold applyRelations. simpl. now rewrite Hrel. Qed.

Lemma mapM_id {A : Type} (f : A -> outcome A) (l : list A) :
  (forall a, f a = Done a) -> mapM f l = Done l.
Proof.
  intros Hf. induction l as [|a l IH]; simpl; [reflexivity|]. now rewrite Hf, IH.
Qed.

(** C6, as the code has it.  On an acyclic quiver without relations and
    without the [comm] flag, [countReducedPaths(s, t)] is the number of
    vertex sequences of directed walks from [s] to [t]: walks that
    differ only in the parallel edge they take count once. *)
Theorem countReducedPaths_counts_walks (fuel : nat) (s t : N) :
  rel G = [] -> comm G = false -> In s (nodes G) ->
  (length (nodes G) < fuel)%nat ->
  exists l, countReducedPaths fuel G s t = Done (Z.of_nat (length l)) /\
            NoDup l /\ forall p, In p l <-> walk G s t p.
Proof.
  intros Hrel Hcomm Hs Hfuel.
  assert (exists ps, listPaths fuel G s t = Done ps /\ NoDup ps /\
                     forall p, In p ps <-> walk G s t p) as (ps & Hps & Hnd & Hwalk).
  { apply (listPaths_walks fuel t s []).
    - exact Hs.
    - constructor.
    - intros x [].
    - intros x [].
    - simpl. lia. }
  exists ps. split; [|now split].
  unfold countReducedPaths, listReducedPaths. rewrite Hps. cbn [bind].
  destruct fuel as [|fuel']; [lia|].
  rewrite (mapM_id (applyRelations (S fuel') G) ps)
    by (intros p; now apply applyRelations_no_relations).
  cbn [bind]. rewrite Hcomm. now rewrite (dedup_id ps Hnd).
Qed.

End PathCounting.

(** ** Checks on concrete quivers *)

Lemma closed_check {N : Type} `{EqDec N} (G : Quiver N) :
  forallb (fun e => mem (fst e) (nodes G) && mem (snd e) (nodes G)) (edges G) = true ->
  closed G.
Proof.
  intros Hall u v Hin. rewrite forallb_forall in Hall. specialize (Hall (u, v) Hin).
  apply andb_true_iff in Hall. simpl in Hall. now rewrite !mem_In in Hall.
Qed.

Lemma acyclic_check {N : Type} (G : Quiver N) (rank : N -> nat) :
  forallb (fun e => (rank (fst e) <? rank (snd e))%nat) (edges G) = true -> acyclic G.
Proof.
  intros Hall. apply (acyclic_by_rank G rank). intros u v Hin.
  rewrite forallb_forall in Hall. specialize (Hall (u, v) Hin). now apply Nat.ltb_lt.
Qed.

Example findsublist_ex1 : findsublist [1; 2; 5]%nat [2; 5]%nat = Done 1.
Proof. reflexivity. Qed.

Example findsublist_ex2 : findsublist [1; 2; 5]%nat [5; 2]%nat = Done (-1).
Proof. reflexivity. Qed.

Example findsublist_ex3 : findsublist [1; 2; 5]%nat (@nil nat) = Done 0.
Proof. reflexivity. Qed.

Example findsublist_ex4 : findsublist (@nil nat) (@nil nat) = Done 0.
Proof. reflexivity. Qed.

Example applyRelations_ex1 : applyRelations 5 example_quiver [1; 2; 5]%nat = Done [1; 4; 5]%nat.
Proof. reflexivity. Qed.

(** The prefix before the match is lost, and the suffix is that of the
    argument. *)
Example applyRelations_ex2 :
  applyRelations 5 (add_relation new_quiver [2; 5]%nat [4; 5]%nat) [1; 2; 5]%nat
  = Done [4; 5]%nat.
Proof. reflexivity. Qed.

(** The quiver of the example is of finite type for the builder, and its
    AR quiver has the arrow from the radical of the projective at vertex 1
    to that projective. *)
Example arQuiver_example :
  exists ar, arQuiver 30 example_quiver = Done ar /\
             In ([0; 1; 0; 1; 1; 0], [1; 1; 0; 1; 1; 0]) (edges ar) /\
             mem (zeros example_quiver) (nodes ar) = false.
Proof.
  destruct (arQuiver 30 example_quiver) as [ar| |] eqn:E;
    [|vm_compute in E; discriminate..].
  exists ar. split; [reflexivity|].
  vm_compute in E. injection E as <-. split; [simpl; tauto|reflexivity].
Qed.

(** On a quiver with [comm] set the two paths count once, although no
    relation identifies them. *)
Example countReducedPaths_diamond :
  rel diamond_quiver = [] /\
  listPaths 5 diamond_quiver 1%nat 4%nat = Done [[1; 2; 4]; [1; 3; 4]]%nat /\
  countReducedPaths 5 diamond_quiver 1%nat 4%nat = Done 1.
Proof. repeat split. Qed.

(** ** The properties at concrete inputs *)

Lemma applyRelations_fixpoint_witness :
  applyRelations 5 example_quiver [1; 2; 5]%nat = Done [1; 4; 5]%nat /\
  forall r repl pos, In (r, repl) (rel example_quiver) -> ~ occurs_at r [1; 4; 5]%nat pos.
Proof.
  split; [reflexivity|].
  apply (applyRelations_fixpoint 5 example_quiver [1; 2; 5]%nat [1; 4; 5]%nat).
  reflexivity.
Defined.

Lemma applyRelations_idempotent_witness :
  applyRelations 5 example_quiver [1; 2; 5]%nat = Done [1; 4; 5]%nat /\
  (0 < 3)%nat /\
  applyRelations 3 example_quiver [1; 4; 5]%nat = Done [1; 4; 5]%nat.
Proof.
  split; [reflexivity|]. split; [lia|].
  apply (applyRelations_idempotent 5 example_quiver [1; 2; 5]%nat [1; 4; 5]%nat);
    [reflexivity|lia].
Defined.

Lemma scan_relations_first_match_witness :
  no_match restart_p [([1; 2], [1; 3])]%nat /\
  findsublist restart_p [1; 5]%nat = Done 0 /\
  slice_from restart_p 2 = [4]%nat /\
  scan_relations restart_p (rel restart_quiver) restart_p true =
    scan_relations restart_p [([1; 2; 4], [1; 6; 4])]%nat [1; 2; 4]%nat false /\
  rewrite_loop 2 restart_quiver restart_p restart_p =
    rewrite_loop 1 restart_quiver restart_p [1; 6; 4]%nat.
Proof.
  assert (no_match restart_p [([1; 2], [1; 3])]%nat) as Hpre.
  { constructor; [|constructor]. exists (-1). split; [reflexivity|lia]. }
  split; [exact Hpre|]. split; [reflexivity|]. split; [reflexivity|].
  destruct (scan_relations_first_match
              restart_p restart_p [1; 5]%nat [1; 2]%nat
              [([1; 2], [1; 3])]%nat [([1; 2; 4], [1; 6; 4])]%nat true
              Hpre eq_refl eq_refl) as [Hpass Hloop].
  split; [exact Hpass|].
  exact (Hloop 1%nat restart_quiver [1; 6; 4]%nat false eq_refl eq_refl).
Defined.

(** The run of the witness: in one pass (1,5,4) becomes (1,2,4) by the
    second relation and then (1,6,4) by the third, each time with the
    matched region replaced and nothing else changed; started anew on
    (1,2,4), the loop takes the first relation and ends with (1,3,4). *)
Example restart_quiver_run :
  scan_relations restart_p [([1; 5], [1; 2])]%nat restart_p true =
    Done (splice restart_p 0 2 [1; 2]%nat, false) /\
  scan_relations restart_p [([1; 2; 4], [1; 6; 4])]%nat [1; 2; 4]%nat false =
    Done (splice [1; 2; 4]%nat 0 3 [1; 6; 4]%nat, false) /\
  applyRelations 2 restart_quiver restart_p = Done [1; 6; 4]%nat /\
  scan_relations restart_p [([1; 2], [1; 3])]%nat [1; 2; 4]%nat true =
    Done (splice [1; 2; 4]%nat 0 2 [1; 3]%nat, false) /\
  rewrite_loop 2 restart_quiver restart_p [1; 2; 4]%nat = Done [1; 3; 4]%nat.
Proof. repeat split. Qed.

(** C1 as stated fails: [applyRelations] on [restart_quiver] turns
    (1,5,4) into (1,6,4).  Its first step, by (1,5) -> (1,2) at position
    0, gives (1,2,4); a scan restarted from the top would now take
    (1,2) -> (1,3) and end with (1,3,4), but the pass goes on with the
    relation after the matching one, (1,2,4) -> (1,6,4). *)
Lemma applyRelations_no_restart : ~ rewrites_then_restarts restart_quiver restart_p.
Proof.
  intros Hc.
  assert (no_match restart_p [([1; 2], [1; 3])]%nat) as Hpre.
  { constructor; [|constructor]. exists (-1). split; [reflexivity|lia]. }
  destruct (Hc restart_p [([1; 2], [1; 3])]%nat [1; 5]%nat [1; 2]%nat
               [([1; 2; 4], [1; 6; 4])]%nat 0 eq_refl Hpre eq_refl ltac:(lia))
    as [_ Hrestart].
  destruct (Hrestart [1; 6; 4]%nat (ex_intro _ 2%nat eq_refl)) as [fuel Hfuel].
  destruct fuel as [|[|fuel]]; vm_compute in Hfuel; discriminate.
Qed.

(** Away from position 0 the step is not a replacement in place (the
    prefix before the match is dropped): with the one relation
    (2,5) -> (4,5) the path (1,2,5) becomes (4,5). *)
Example applyRelations_drops_prefix :
  findsublist [1; 2; 5]%nat [2; 5]%nat = Done 1 /\
  applyRelations 2 (add_relation new_quiver [2; 5]%nat [4; 5]%nat) [1; 2; 5]%nat
    = Done [4; 5]%nat.
Proof. split; reflexivity. Qed.

Lemma countReducedPaths_comm_witness :
  comm comm_quiver = true /\
  listReducedPaths 6 comm_quiver 1%nat 6%nat = Done [[1; 2; 6]; [1; 5; 6]]%nat /\
  countReducedPaths 6 comm_quiver 1%nat 6%nat = Done 1.
Proof.
  split; [reflexivity|]. split; [reflexivity|].
  exact (proj1 (countReducedPaths_comm 6 comm_quiver 1%nat 6%nat eq_refl)
               [[1; 2; 6]; [1; 5; 6]]%nat eq_refl).
Defined.

Lemma enqueued_nonneg_witness :
  api_nonneg example_quiver /\
  exists ar todo,
    seed 6 example_quiver = Done (ar, todo) /\
    Forall nonneg todo /\
    forall k G' ar' todo',
      after_rounds k 6 example_quiver ar todo = Done (Next G' ar' todo') ->
      Forall nonneg todo'.
Proof.
  split; [exact I|].
  destruct (seed 6 example_quiver) as [[ar todo]| |] eqn:E;
    [|vm_compute in E; discriminate..].
  exists ar, todo. split; [reflexivity|].
  exact (enqueued_nonneg 6 example_quiver ar todo I E).
Defined.


Lemma countReducedPaths_counts_walks_witness :
  acyclic example_dag /\ closed example_dag /\
  rel example_dag = [] /\ comm example_dag = false /\ In 1%nat (nodes example_dag) /\
  (length (nodes example_dag) < 7)%nat /\
  exists l, countReducedPaths 7 example_dag 1%nat 5%nat = Done (Z.of_nat (length l)) /\
            NoDup l /\ forall p, In p l <-> walk example_dag 1%nat 5%nat p.
Proof.
  assert (acyclic example_dag) as Hacyclic
      by (apply (acyclic_check example_dag example_rank); reflexivity).
  assert (closed example_dag) as Hclosed by (apply closed_check; reflexivity).
  split; [exact Hacyclic|]. split; [exact Hclosed|].
  split; [reflexivity|]. split; [reflexivity|]. split; [simpl; tauto|].
  split; [simpl; lia|].
  apply (countReducedPaths_counts_walks example_dag Hacyclic Hclosed 7 1%nat 5%nat);
    [reflexivity|reflexivity|simpl; tauto|simpl; lia].
Defined.

(** C6 as stated fails: two parallel arrows from 1 to 2 are two walks of
    the multigraph, and [countReducedPaths] answers 1. *)
Lemma countReducedPaths_not_multigraph_walks : ~ counts_multigraph_walks.
Proof.
  intros Hc.
  assert (acyclic parallel_quiver) as Hacyclic
      by (apply (acyclic_check parallel_quiver (fun v => v)); reflexivity).
  assert (closed parallel_quiver) as Hclosed by (apply closed_check; reflexivity).
  specialize (Hc parallel_quiver 3%nat 1%nat 2%nat 1 Hacyclic Hclosed eq_refl).
  assert (In 1%nat (nodes parallel_quiver)) as H1 by (simpl; tauto).
  assert (In 2%nat (nodes parallel_quiver)) as H2 by (simpl; tauto).
  specialize (Hc H1 H2 eq_refl). vm_compute in Hc. discriminate.
Qed.


(** * Further properties of the code *)

(** ** findsublist: the leftmost occurrence *)

(** For every haystack and needle (the empty one included) [findsublist]
    returns: [-1] when the needle occurs nowhere, and otherwise the start
    of its leftmost occurrence. *)
Theorem findsublist_leftmost {A : Type} `{EqDec A} (haystack needle : list A) :
  exists r, findsublist haystack needle = Done r /\
    ((r = -1 /\ forall p, ~ occurs_at needle haystack p) \/
     (0 <= r /\ occurs_at needle haystack (Z.to_nat r) /\
      forall p, (p < Z.to_nat r)%nat -> ~ occurs_at needle haystack p)).
Proof.
  destruct (findsublist_spec haystack needle) as (r & Hr & Hcases).
  exists r. split; [exact Hr|]. destruct Hcases as [[-> Hno]|[Hm Hleft]].
  - left. split; [reflexivity|]. intros p Hp.
    apply (Hno (Z.of_nat p)). now apply occurs_at_match_at.
  - right. assert (0 <= r) as Hr0 by (destruct Hm; assumption).
    split; [exact Hr0|]. split.
    + apply occurs_at_match_at. now rewrite Z2Nat.id.
    + intros p Hp Hocc. apply (Hleft (Z.of_nat p)); [lia|].
      now apply occurs_at_match_at.
Qed.

(** ** applyRelations: what it leaves alone, and when it does not end *)

(** A pass of the relation loop always comes to its end: the search never
    raises. *)
Lemma scan_relations_returns {N : Type} `{EqDec N} (p : list N) rs ret stop :
  exists ret' stop', scan_relations p rs ret stop = Done (ret', stop').
Proof.
  revert ret stop. induction rs as [|[r repl] rs IH]; intros ret stop; simpl.
  - now exists ret, stop.
  - destruct (findsublist_returns ret r) as (pos & -> & _). simpl.
    destruct (0 <=? pos); apply IH.
Qed.

Lemma scan_relations_empty_pattern {N : Type} `{EqDec N} (p : list N) rs repl ret stop ret' stop' :
  In ([], repl) rs ->
  scan_relations p rs ret stop = Done (ret', stop') -> stop' = false.
Proof.
  revert ret stop. induction rs as [|[r0 repl0] rs IH]; intros ret stop Hin; simpl.
  - destruct Hin.
  - destruct Hin as [[= -> ->]|Hin].
    + destruct (findsublist_spec ret (@nil N)) as (pos & -> & [[_ Hno]|[(Hpos & _) _]]).
      * exfalso. apply (Hno 0). apply (occurs_at_match_at [] ret 0%nat).
        exists [], ret. now split.
      * simpl. destruct (Z.leb_spec 0 pos); [|lia]. apply scan_relations_false.
    + destruct (findsublist ret r0) as [pos| |]; simpl; try discriminate.
      destruct (0 <=? pos); now apply IH.
Qed.

(** When a relation with the empty pattern is stored, [applyRelations]
    never returns, whatever the path: every pass finds the empty pattern
    (at position 0) and asks for another pass. *)
Theorem applyRelations_empty_pattern {N : Type} `{EqDec N}
        (fuel : nat) (G : Quiver N) (p repl : list N) :
  In ([], repl) (rel G) -> applyRelations fuel G p = Diverge.
Proof.
  intros Hin. unfold applyRelations. generalize p at 2. intros ret. revert ret.
  induction fuel as [|fuel IH]; intros ret; simpl; [reflexivity|].
  destruct (scan_relations_returns p (rel G) ret true) as (ret' & stop' & Hscan).
  rewrite Hscan. simpl.
  rewrite (scan_relations_empty_pattern p (rel G) repl ret true ret' stop' Hin Hscan).
  apply IH.
Qed.

Lemma applyRelations_empty_pattern_witness :
  In ([], [1]%nat) (rel (add_relation new_quiver [] [1]%nat)) /\
  applyRelations 9 (add_relation new_quiver [] [1]%nat) [2; 3]%nat = Diverge.
Proof.
  split; [simpl; tauto|].
  apply (applyRelations_empty_pattern 9 (add_relation new_quiver [] [1]%nat)
                                      [2; 3]%nat [1]%nat).
  simpl. tauto.
Defined.

(** [applyRelations] never raises: it returns a path, or it does not
    return. *)
Theorem applyRelations_never_raises {N : Type} `{EqDec N}
        (fuel : nat) (G : Quiver N) (p : list N) :
  applyRelations fuel G p = Diverge \/ exists q, applyRelations fuel G p = Done q.
Proof.
  unfold applyRelations. generalize p at 2 4. intros ret. revert ret.
  induction fuel as [|fuel IH]; intros ret; simpl; [now left|].
  destruct (scan_relations_returns p (rel G) ret true) as (ret' & stop' & ->). simpl.
  destruct stop'; [right; now exists ret'|apply IH].
Qed.

(** A path in which no stored pattern occurs is returned as it is, after
    one pass. *)
Theorem applyRelations_unchanged {N : Type} `{EqDec N}
        (fuel : nat) (G : Quiver N) (p : list N) :
  (forall r repl pos, In (r, repl) (rel G) -> ~ occurs_at r p pos) ->
  applyRelations (S fuel) G p = Done p.
Proof.
  intros Hno. unfold applyRelations. simpl.
  rewrite (scan_relations_no_match p (rel G) p true); [reflexivity|].
  unfold no_match. apply Forall_forall. intros [r repl] Hin. simpl.
  destruct (findsublist_spec p r) as (pos & Hpos & [[-> _]|[Hm _]]).
  - exists (-1). split; [exact Hpos|lia].
  - exfalso. assert (0 <= pos) as Hpos0 by (destruct Hm; assumption).
    apply (Hno r repl (Z.to_nat pos) Hin).
    apply occurs_at_match_at. now rewrite Z2Nat.id.
Qed.

Lemma applyRelations_unchanged_witness :
  (forall r repl pos, In (r, repl) (rel example_quiver) -> ~ occurs_at r [1; 4; 5]%nat pos) /\
  applyRelations 1 example_quiver [1; 4; 5]%nat = Done [1; 4; 5]%nat.
Proof.
  assert (forall r repl pos, In (r, repl) (rel example_quiver) ->
                             ~ occurs_at r [1; 4; 5]%nat pos) as Hno.
  { intros r repl pos Hin. simpl in Hin.
    destruct Hin as [[= <- <-]|[[= <- <-]|[]]];
      apply (findsublist_negative [1; 4; 5]%nat _ (-1)); (reflexivity || lia). }
  split; [exact Hno|].
  exact (applyRelations_unchanged 0 example_quiver [1; 4; 5]%nat Hno).
Defined.

(** ** isSimple *)

Lemma no_nonzero_zeros (m : vec) :
  length (filter (fun x => negb (x =? 0)) m) = 0%nat ->
  Forall (eq 0) m /\ fold_right Z.add 0 m = 0.
Proof.
  induction m as [|x m IH]; simpl; [now split|].
  destruct (Z.eqb_spec x 0) as [->|Hx]; simpl; [|discriminate].
  intros Hm. destruct (IH Hm) as [Hall Hsum]. split; [now constructor|lia].
Qed.

Lemma zeros_no_nonzero (m : vec) :
  Forall (eq 0) m ->
  length (filter (fun x => negb (x =? 0)) m) = 0%nat /\ fold_right Z.add 0 m = 0.
Proof.
  induction 1 as [|x m <- _ [IH1 IH2]]; simpl; [now split|]. split; [exact IH1|lia].
Qed.

Lemma isSimple_iff_unit (m : vec) :
  isSimple m = true <->
  exists pre post, m = pre ++ 1 :: post /\ Forall (eq 0) pre /\ Forall (eq 0) post.
Proof.
  unfold isSimple. rewrite andb_true_iff, Z.eqb_eq, Nat.eqb_eq. split.
  - induction m as [|x m IH]; simpl; [intros [Hs _]; lia|].
    destruct (Z.eqb_spec x 0) as [->|Hx]; simpl.
    + intros [Hs Hc]. destruct IH as (pre & post & -> & Hpre & Hpost); [split; [lia|exact Hc]|].
      exists (0 :: pre), post. split; [reflexivity|]. split; [now constructor|exact Hpost].
    + intros [Hs Hc]. injection Hc as Hc. destruct (no_nonzero_zeros m Hc) as [Hall Hsum].
      exists [], m. split; [simpl; f_equal; lia|]. split; [constructor|exact Hall].
  - intros (pre & post & -> & Hpre & Hpost).
    destruct (zeros_no_nonzero pre Hpre) as [Hc1 Hs1].
    destruct (zeros_no_nonzero post Hpost) as [Hc2 Hs2].
    rewrite filter_app, length_app, Hc1. simpl. rewrite Hc2. split; [|reflexivity].
    assert (forall l, fold_right Z.add 0 (pre ++ l) =
                      fold_right Z.add 0 pre + fold_right Z.add 0 l) as Happ.
    { intros l. clear. induction pre as [|z pre IH]; simpl; [lia|]. rewrite IH. lia. }
    rewrite Happ. cbn [fold_right]. lia.
Qed.

(** [isSimple] holds exactly of the vectors with one component 1 and all
    others 0 (a vector with a negative component is never simple). *)
Theorem isSimple_unit_vector (m : vec) :
  isSimple m = true <->
  exists pre post, m = pre ++ 1 :: post /\ Forall (eq 0) pre /\ Forall (eq 0) post.
Proof. exact (isSimple_iff_unit m). Qed.

(** ** add_relation *)

Lemma dict_set_In {K V : Type} `{EqDec K} (d : dict K V) (k : K) (v : V) :
  In (k, v) (dict_set d k v).
Proof.
  induction d as [|[k0 v0] d IH]; simpl; [now left|].
  destruct (eq_dec k k0); [now left|now right].
Qed.

Lemma findsublist_prefix {N : Type} `{EqDec N} (r rest : list N) :
  findsublist (r ++ rest) r = Done 0.
Proof.
  destruct (findsublist_spec (r ++ rest) r) as (pos & Hpos & Hcases).
  assert (match_at r (r ++ rest) 0) as H0.
  { apply (occurs_at_match_at r (r ++ rest) 0). now exists [], rest. }
  destruct Hcases as [[_ Hno]|[Hm Hleft]]; [destruct (Hno 0 H0)|].
  destruct (Z.lt_trichotomy pos 0) as [Hlt|[->|Hgt]].
  - destruct Hm as (Hm & _). lia.
  - exact Hpos.
  - destruct (Hleft 0 Hgt H0).
Qed.

Lemma findsublist_absent {N : Type} `{EqDec N} (haystack needle : list N) :
  (forall pos, ~ occurs_at needle haystack pos) ->
  findsublist haystack needle = Done (-1).
Proof.
  intros Hno. destruct (findsublist_spec haystack needle) as (pos & Hpos & Hcases).
  destruct Hcases as [[-> _]|[Hm _]]; [exact Hpos|].
  exfalso. apply (Hno (Z.to_nat pos)). apply occurs_at_match_at.
  destruct Hm as (Hm0 & Hm). rewrite Z2Nat.id by exact Hm0. now split.
Qed.

(** [add_relation] followed by [applyRelations]: the pattern just stored
    (wherever it comes in the iteration order) occurs in no path that
    [applyRelations] returns; and when it is the only relation, a path
    that starts with the pattern is returned with the pattern replaced,
    after two passes, provided the pattern does not occur in the
    result. *)
Theorem add_relation_applied {N : Type} `{EqDec N} (G : Quiver N) (path0 path1 : list N) :
  (forall fuel p q,
      applyRelations fuel (add_relation G path0 path1) p = Done q ->
      forall pos, ~ occurs_at path0 q pos) /\
  (forall rest fuel,
      rel G = [] ->
      (forall pos, ~ occurs_at path0 (path1 ++ rest) pos) ->
      applyRelations (S (S fuel)) (add_relation G path0 path1) (path0 ++ rest)
        = Done (path1 ++ rest)).
Proof.
  split.
  - intros fuel p q Hq pos. apply rewrite_loop_clean in Hq.
    unfold no_match in Hq. rewrite Forall_forall in Hq.
    destruct (Hq (path0, path1)) as (pos' & Hpos' & Hneg).
    + unfold add_relation. cbn [rel]. apply dict_set_In.
    + exact (findsublist_negative q path0 pos' Hpos' Hneg pos).
  - intros rest fuel Hrel Hno. unfold applyRelations, add_relation.
    cbn [rewrite_loop rel]. rewrite Hrel. cbn [dict_set scan_relations].
    rewrite findsublist_prefix. cbn [bind].
    replace (slice_from (path0 ++ rest) (0 + Z.of_nat (length path0))) with rest.
    + cbn [Z.leb Z.compare bind]. rewrite (findsublist_absent _ _ Hno). reflexivity.
    + unfold slice_from. rewrite Z.add_0_l, Nat2Z.id, skipn_app, skipn_all, Nat.sub_diag.
      reflexivity.
Qed.

Lemma add_relation_applied_witness :
  rel example_dag = [] /\
  (forall pos, ~ occurs_at [1; 2]%nat [1; 4; 5]%nat pos) /\
  applyRelations 2 (add_relation example_dag [1; 2]%nat [1; 4]%nat) [1; 2; 5]%nat
    = Done [1; 4; 5]%nat.
Proof.
  destruct (add_relation_applied example_dag [1; 2]%nat [1; 4]%nat) as [Hclean Hrun].
  assert (forall pos, ~ occurs_at [1; 2]%nat [1; 4; 5]%nat pos) as Hno
      by exact (Hclean 2%nat [1; 2; 5]%nat [1; 4; 5]%nat eq_refl).
  split; [reflexivity|]. split; [exact Hno|].
  exact (Hrun [5]%nat 0%nat eq_refl Hno).
Defined.

(** ** The dimension vectors and their caches *)

Lemma mapM_length {A B : Type} (f : A -> outcome B) (l : list A) (r : list B) :
  mapM f l = Done r -> length r = length l.
Proof.
  revert r. induction l as [|a l IH]; simpl; intros r.
  - now intros [= <-].
  - destruct (f a) as [b| |]; simpl; try discriminate.
    destruct (mapM f l) as [bs| |]; simpl; try discriminate.
    intros [= <-]. simpl. f_equal. now apply IH.
Qed.

Lemma mapM_nth {A B : Type} (f : A -> outcome B) (l : list A) (r : list B) (k : nat) (a : A) :
  mapM f l = Done r -> nth_error l k = Some a ->
  exists b, f a = Done b /\ nth_error r k = Some b.
Proof.
  revert r k. induction l as [|a0 l IH]; simpl; intros r k Hr Hk.
  - destruct k; discriminate.
  - destruct (f a0) as [b0| |] eqn:E0; simpl in Hr; try discriminate.
    destruct (mapM f l) as [bs| |]; simpl in Hr; try discriminate.
    injection Hr as <-. destruct k as [|k]; simpl in *.
    + injection Hk as <-. now exists b0.
    + now apply IH.
Qed.

Lemma index_of_spec {A : Type} `{EqDec A} (l : list A) (v : A) :
  In v l ->
  exists i, index_of l v = Done i /\ 0 <= i < Z.of_nat (length l) /\
            nth_error l (Z.to_nat i) = Some v.
Proof.
  induction l as [|a l IH]; simpl; [intros []|]. intros Hin.
  destruct (eq_dec a v) as [->|Hne].
  - exists 0. repeat split; lia.
  - destruct IH as (i & -> & Hi & Hnth); [destruct Hin; [contradiction|assumption]|].
    exists (i + 1). simpl. repeat split; try lia.
    replace (Z.to_nat (i + 1)) with (S (Z.to_nat i)) by lia. exact Hnth.
Qed.

(** Reading position [index(v)] of a list computed over the nodes gives
    what the computation gives for [v]. *)
Lemma cache_read {A B : Type} `{EqDec A} (f : A -> outcome B) (l : list A) (c : list B) (v : A) :
  mapM f l = Done c -> In v l ->
  (i <- index_of l v ;; getitem c i) = f v.
Proof.
  intros Hc Hin. destruct (index_of_spec l v Hin) as (i & -> & Hi & Hnth). simpl.
  destruct (mapM_nth f l c (Z.to_nat i) v Hc Hnth) as (b & Hb & Hcb).
  destruct (getitem_nonneg c i) as (x & -> & Hx);
    [rewrite (mapM_length f l c Hc); exact Hi|].
  congruence.
Qed.

Lemma cached_nonempty (c : list vec) : c <> [] -> cached (Some c) = Some c.
Proof. destruct c; [congruence|reflexivity]. Qed.

Lemma mapM_nonempty {A B : Type} (f : A -> outcome B) (l : list A) (c : list B) (v : A) :
  mapM f l = Done c -> In v l -> c <> [].
Proof.
  intros Hc Hin ->. apply mapM_length in Hc. destruct l; [destruct Hin|discriminate].
Qed.

Section Caches.
Context {N : Type} `{EqDec N}.

(** Once one of the [all_..._indecomp] methods has returned, calling it
    again returns the same list and leaves the quiver as it is, without
    computing anything (it returns even with no fuel at all). *)
Theorem all_indecomp_again (fuel fuel' : nat) (G G' : Quiver N) (c : list vec) :
  (all_proj_indecomp fuel G = Done (G', c) -> all_proj_indecomp fuel' G' = Done (G', c)) /\
  (all_inj_indecomp fuel G = Done (G', c) -> all_inj_indecomp fuel' G' = Done (G', c)) /\
  (all_rad_indecomp fuel G = Done (G', c) -> all_rad_indecomp fuel' G' = Done (G', c)).
Proof.
  repeat split.
  - unfold all_proj_indecomp at 1. destruct (cached (api G)) as [c0|] eqn:Ec.
    + intros [= <- <-]. unfold all_proj_indecomp. now rewrite Ec.
    + destruct (mapM (proj_indecomp fuel G) (nodes G)) as [c1| |] eqn:Em;
        simpl; try discriminate.
      intros [= <- <-]. unfold all_proj_indecomp. simpl. destruct c1 as [|x c1]; simpl.
      * apply mapM_length in Em. destruct (nodes G); [reflexivity|discriminate].
      * reflexivity.
  - unfold all_inj_indecomp at 1. destruct (cached (aii G)) as [c0|] eqn:Ec.
    + intros [= <- <-]. unfold all_inj_indecomp. now rewrite Ec.
    + destruct (mapM (inj_indecomp fuel G) (nodes G)) as [c1| |] eqn:Em;
        simpl; try discriminate.
      intros [= <- <-]. unfold all_inj_indecomp. simpl. destruct c1 as [|x c1]; simpl.
      * apply mapM_length in Em. destruct (nodes G); [reflexivity|discriminate].
      * reflexivity.
  - unfold all_rad_indecomp at 1. destruct (cached (ari G)) as [c0|] eqn:Ec.
    + intros [= <- <-]. unfold all_rad_indecomp. now rewrite Ec.
    + destruct (mapM (radical_proj fuel G) (nodes G)) as [c1| |] eqn:Em;
        simpl; try discriminate.
      intros [= <- <-]. unfold all_rad_indecomp. simpl. destruct c1 as [|x c1]; simpl.
      * apply mapM_length in Em. destruct (nodes G); [reflexivity|discriminate].
      * reflexivity.
Qed.

(** After [all_proj_indecomp] (or [all_inj_indecomp], [all_rad_indecomp])
    has filled its cache, the method for one vertex [v] of the quiver reads
    the cache and answers what it answered before. *)
Theorem indecomp_from_cache (fuel fuel' : nat) (G G' : Quiver N) (c : list vec) (v : N) :
  In v (nodes G) ->
  (cached (api G) = None -> all_proj_indecomp fuel G = Done (G', c) ->
   proj_indecomp fuel' G' v = proj_indecomp fuel G v) /\
  (cached (aii G) = None -> all_inj_indecomp fuel G = Done (G', c) ->
   inj_indecomp fuel' G' v = inj_indecomp fuel G v) /\
  (cached (ari G) = None -> all_rad_indecomp fuel G = Done (G', c) ->
   radical_proj fuel' G' v = radical_proj fuel G v).
Proof.
  intros Hv. repeat split; intros Hnone.
  - unfold all_proj_indecomp. rewrite Hnone.
    destruct (mapM (proj_indecomp fuel G) (nodes G)) as [c1| |] eqn:Em;
      simpl; try discriminate.
    intros [= <- <-]. unfold proj_indecomp at 1. cbn [api aii ari nodes].
    rewrite (cached_nonempty c1 (mapM_nonempty _ _ _ v Em Hv)).
    exact (cache_read _ _ _ v Em Hv).
  - unfold all_inj_indecomp. rewrite Hnone.
    destruct (mapM (inj_indecomp fuel G) (nodes G)) as [c1| |] eqn:Em;
      simpl; try discriminate.
    intros [= <- <-]. unfold inj_indecomp at 1. cbn [api aii ari nodes].
    rewrite (cached_nonempty c1 (mapM_nonempty _ _ _ v Em Hv)).
    exact (cache_read _ _ _ v Em Hv).
  - unfold all_rad_indecomp. rewrite Hnone.
    destruct (mapM (radical_proj fuel G) (nodes G)) as [c1| |] eqn:Em;
      simpl; try discriminate.
    intros [= <- <-]. unfold radical_proj at 1. cbn [api aii ari nodes].
    rewrite (cached_nonempty c1 (mapM_nonempty _ _ _ v Em Hv)).
    exact (cache_read _ _ _ v Em Hv).
Qed.

(** A filled cache is not brought up to date: after an arrow is added
    between two vertices of the quiver the arrow is there, and
    [proj_indecomp] still answers from the cache what it answered
    before. *)
Theorem proj_indecomp_stale (fuel : nat) (G : Quiver N) (c : list vec) (u v x : N) :
  cached (api G) = Some c -> In u (nodes G) -> In v (nodes G) ->
  In (u, v) (edges (add_edge G u v)) /\
  proj_indecomp fuel (add_edge G u v) x = proj_indecomp fuel G x.
Proof.
  intros Hc Hu Hv. split.
  - rewrite edges_add_edge. apply in_app_iff. right. now left.
  - assert (add_node (add_node G u) v = G) as Hnodes.
    { unfold add_node at 2. rewrite (proj2 (mem_In u (nodes G)) Hu).
      unfold add_node. now rewrite (proj2 (mem_In v (nodes G)) Hv). }
    unfold proj_indecomp, add_edge. cbn [api nodes]. now rewrite Hnodes, Hc.
Qed.

End Caches.

Lemma indecomp_from_cache_witness :
  In 1%nat (nodes example_quiver) /\
  exists G' c,
    all_proj_indecomp 5 example_quiver = Done (G', c) /\
    proj_indecomp 0 G' 1%nat = proj_indecomp 5 example_quiver 1%nat.
Proof.
  assert (In 1%nat (nodes example_quiver)) as Hv by (simpl; tauto).
  split; [exact Hv|].
  destruct (all_proj_indecomp 5 example_quiver) as [[G' c]| |] eqn:E;
    [|vm_compute in E; discriminate..].
  exists G', c. split; [reflexivity|].
  exact (proj1 (indecomp_from_cache 5 0 example_quiver G' c 1%nat Hv) eq_refl E).
Defined.

Lemma proj_indecomp_stale_witness :
  cached (api example_cached) = Some example_api /\
  In 5%nat (nodes example_cached) /\ In 1%nat (nodes example_cached) /\
  In (5, 1)%nat (edges (add_edge example_cached 5%nat 1%nat)) /\
  proj_indecomp 5 (add_edge example_cached 5%nat 1%nat) 5%nat
    = proj_indecomp 5 example_cached 5%nat.
Proof.
  assert (cached (api example_cached) = Some example_api) as Hc by reflexivity.
  assert (In 5%nat (nodes example_cached)) as H5 by (simpl; tauto).
  assert (In 1%nat (nodes example_cached)) as H1 by (simpl; tauto).
  split; [exact Hc|]. split; [exact H5|]. split; [exact H1|].
  exact (proj_indecomp_stale 5 example_cached example_api 5%nat 1%nat 5%nat Hc H5 H1).
Defined.

Section Indecomposables.
Context {N : Type} `{EqDec N}.

Lemma countReducedPaths_refl (fuel : nat) (G : Quiver N) (v : N) (c : Z) :
  countReducedPaths fuel G v v = Done c -> c = 1.
Proof.
  unfold countReducedPaths, listReducedPaths. destruct fuel as [|fuel]; [discriminate|].
  simpl. destruct (eq_dec v v) as [_|Hne]; [|congruence]. simpl.
  destruct (applyRelations (S fuel) G [v]) as [q| |]; simpl; try discriminate.
  destruct (comm G); now intros [= <-].
Qed.

Lemma radical_proj_shape (fuel : nat) (G : Quiver N) (v : N) (pj : vec) :
  cached (api G) = None -> cached (ari G) = None ->
  In v (nodes G) -> proj_indecomp fuel G v = Done pj ->
  exists i,
    index_of (nodes G) v = Done i /\
    length pj = length (nodes G) /\
    nth_error pj (Z.to_nat i) = Some 1 /\
    radical_proj fuel G v =
      Done (firstn (Z.to_nat i) pj ++ 0 :: skipn (S (Z.to_nat i)) pj).
Proof.
  intros Hapi Hari Hv Hpj.
  destruct (index_of_spec (nodes G) v Hv) as (i & Hi & Hrange & Hnth).
  exists i. split; [exact Hi|].
  assert (mapM (fun w => countReducedPaths fuel G v w) (nodes G) = Done pj) as Hm
      by (unfold proj_indecomp in Hpj; now rewrite Hapi in Hpj).
  pose proof (mapM_length _ _ _ Hm) as Hlen. split; [exact Hlen|].
  destruct (mapM_nth _ _ _ _ _ Hm Hnth) as (c & Hc & Hpc).
  apply countReducedPaths_refl in Hc. subst c. split; [exact Hpc|].
  unfold radical_proj. rewrite Hari, Hpj. cbn [bind]. rewrite Hi. cbn [bind].
  unfold setitem. rewrite Hlen.
  replace (i <? 0) with false by (symmetry; apply Z.ltb_ge; lia).
  replace (0 <=? i) with true by (symmetry; apply Z.leb_le; lia).
  replace (i <? Z.of_nat (length (nodes G))) with true by (symmetry; apply Z.ltb_lt; lia).
  reflexivity.
Qed.

(** Without caches, when [proj_indecomp(v)] returns for a vertex [v] of
    the quiver: the vector has one component per vertex, its component at
    the position of [v] is 1, and [radical_proj(v)] returns the same vector
    with 0 at that position. *)
Theorem radical_proj_spec (fuel : nat) (G : Quiver N) (v : N) (pj : vec) :
  cached (api G) = None -> cached (ari G) = None ->
  In v (nodes G) -> proj_indecomp fuel G v = Done pj ->
  exists i,
    index_of (nodes G) v = Done i /\
    length pj = length (nodes G) /\
    nth_error pj (Z.to_nat i) = Some 1 /\
    radical_proj fuel G v =
      Done (firstn (Z.to_nat i) pj ++ 0 :: skipn (S (Z.to_nat i)) pj).
Proof. exact (radical_proj_shape fuel G v pj). Qed.

Lemma dedup_length {A : Type} `{EqDec A} (l : list A) :
  (length (dedup l) <= length l)%nat /\ (l <> [] -> dedup l <> []).
Proof.
  split.
  - induction l as [|a l IH]; simpl; [lia|].
    pose proof (filter_length_le (fun b => negb (eqb b a)) (dedup l)). lia.
  - destruct l; [congruence|discriminate].
Qed.

(** The number of reduced paths is at most the number of paths, at least
    1 when there is a path, and 0 when there is none. *)
Theorem countReducedPaths_bounds (fuel : nat) (G : Quiver N) (s t : N)
        (ps : list (list N)) (c : Z) :
  listPaths fuel G s t = Done ps ->
  countReducedPaths fuel G s t = Done c ->
  c <= Z.of_nat (length ps) /\ (ps <> [] -> 1 <= c) /\ (ps = [] -> c = 0).
Proof.
  intros Hps. unfold countReducedPaths, listReducedPaths. rewrite Hps. cbn [bind].
  destruct (mapM (applyRelations fuel G) ps) as [red| |] eqn:Em; cbn [bind]; try discriminate.
  pose proof (mapM_length _ _ _ Em) as Hlen.
  destruct (dedup_length red) as [Hle Hne].
  assert (ps <> [] -> (1 <= length (dedup red))%nat) as Hpos.
  { intros Hps0. assert (red <> []) as Hred by (destruct red, ps; simpl in *; congruence).
    specialize (Hne Hred). destruct (dedup red); [congruence|simpl; lia]. }
  assert (ps = [] -> length (dedup red) = 0%nat) as Hzero.
  { intros ->. destruct red; [reflexivity|discriminate]. }
  destruct (comm G).
  - destruct (Z.eqb_spec (Z.of_nat (length (dedup red))) 0) as [Hz|Hz]; intros [= <-].
    + repeat split; try lia. intros Hps0. specialize (Hpos Hps0). lia.
    + repeat split; try lia. intros Hps0. specialize (Hzero Hps0). lia.
  - intros [= <-]. repeat split; try lia.
    + intros Hps0. specialize (Hpos Hps0). lia.
    + intros Hps0. specialize (Hzero Hps0). lia.
Qed.

End Indecomposables.

Lemma radical_proj_spec_witness :
  cached (api example_quiver) = None /\ cached (ari example_quiver) = None /\
  In 1%nat (nodes example_quiver) /\
  proj_indecomp 5 example_quiver 1%nat = Done [1; 1; 0; 1; 1; 0] /\
  exists i,
    index_of (nodes example_quiver) 1%nat = Done i /\
    length [1; 1; 0; 1; 1; 0] = length (nodes example_quiver) /\
    nth_error [1; 1; 0; 1; 1; 0] (Z.to_nat i) = Some 1 /\
    radical_proj 5 example_quiver 1%nat =
      Done (firstn (Z.to_nat i) [1; 1; 0; 1; 1; 0]
              ++ 0 :: skipn (S (Z.to_nat i)) [1; 1; 0; 1; 1; 0]).
Proof.
  split; [reflexivity|]. split; [reflexivity|]. split; [simpl; tauto|].
  split; [reflexivity|].
  apply (radical_proj_spec 5 example_quiver 1%nat [1; 1; 0; 1; 1; 0]);
    [reflexivity|reflexivity|simpl; tauto|reflexivity].
Defined.

Lemma countReducedPaths_bounds_witness :
  listPaths 5 example_quiver 1%nat 5%nat = Done [[1; 2; 5]; [1; 4; 5]]%nat /\
  countReducedPaths 5 example_quiver 1%nat 5%nat = Done 1 /\
  1 <= Z.of_nat (length [[1; 2; 5]; [1; 4; 5]]%nat) /\
  ([[1; 2; 5]; [1; 4; 5]]%nat <> [] -> 1 <= 1) /\
  ([[1; 2; 5]; [1; 4; 5]]%nat = [] -> 1 = 0).
Proof.
  split; [reflexivity|]. split; [reflexivity|].
  exact (countReducedPaths_bounds 5 example_quiver 1%nat 5%nat
                                  [[1; 2; 5]; [1; 4; 5]]%nat 1 eq_refl eq_refl).
Defined.

(** ** listPaths on arbitrary quivers *)

Lemma flat_mapM_In {A B : Type} (f : A -> outcome (list B)) (l : list A) (r : list B) :
  flat_mapM f l = Done r ->
  (forall a, In a l -> exists bs, f a = Done bs) /\
  (forall x, In x r -> exists a bs, In a l /\ f a = Done bs /\ In x bs).
Proof.
  revert r. induction l as [|a l IH]; simpl; intros r.
  - intros [= <-]. split; [intros a []|intros x []].
  - destruct (f a) as [bs| |] eqn:Ea; simpl; try discriminate.
    destruct (flat_mapM f l) as [rest| |]; simpl; try discriminate.
    intros [= <-]. destruct (IH rest eq_refl) as [IH1 IH2]. split.
    + intros a0 [<-|Hin]; [now exists bs|now apply IH1].
    + intros x Hx. apply in_app_or in Hx. destruct Hx as [Hx|Hx].
      * exists a, bs. split; [now left|now split].
      * destruct (IH2 x Hx) as (a0 & bs0 & Ha0 & Hf & Hin).
        exists a0, bs0. split; [now right|now split].
Qed.

Section ListPaths.
Context {N : Type} `{EqDec N}.

(** Whatever the quiver, every path that [listPaths(s, t)] returns is a
    walk of the quiver from [s] to [t]. *)
Theorem listPaths_sound (fuel : nat) (G : Quiver N) (s t : N) (ps : list (list N)) :
  listPaths fuel G s t = Done ps -> forall p, In p ps -> walk G s t p.
Proof.
  revert s ps. induction fuel as [|fuel IH]; intros s ps; simpl; [discriminate|].
  destruct (eq_dec s t) as [->|Hst].
  - intros [= <-] p [<-|[]]. constructor.
  - destruct (successors G s) as [sss| |] eqn:Es; simpl; try discriminate.
    intros Hfm p Hp. apply flat_mapM_In in Hfm. destruct Hfm as [_ Hfm].
    destruct (Hfm p Hp) as (u & bs & Hu & Hf & Hin).
    destruct (listPaths fuel G u t) as [qs| |] eqn:Eu; simpl in Hf; try discriminate.
    injection Hf as <-. apply in_map_iff in Hin. destruct Hin as (q & <- & Hq).
    apply walk_step with u.
    + now apply (successors_edge G s sss Es).
    + exact (IH u qs Eu q Hq).
Qed.

(** [listPaths(s, s)] is the one path [(s)], whether or not [s] is a
    vertex; for [s] different from [t] and not a vertex of the quiver,
    [listPaths(s, t)] raises [NetworkXError]. *)
Theorem listPaths_edge_cases (fuel : nat) (G : Quiver N) (s t : N) :
  listPaths (S fuel) G s s = Done [[s]] /\
  (s <> t -> ~ In s (nodes G) -> listPaths (S fuel) G s t = Raise NetworkXError).
Proof.
  split; simpl.
  - destruct (eq_dec s s); congruence.
  - intros Hst Hs. destruct (eq_dec s t); [contradiction|].
    unfold successors. destruct (mem s (nodes G)) eqn:E; [|reflexivity].
    apply mem_In in E. contradiction.
Qed.

(** When one can walk on for ever from [s] without meeting [t] (a cycle
    can be reached, say), [listPaths(s, t)] does not return, however deep
    the recursion may go. *)
Theorem listPaths_no_return (G : Quiver N) (t : N) (C : N -> Prop) (s : N) :
  endless G t C -> C s ->
  forall fuel ps, listPaths fuel G s t <> Done ps.
Proof.
  intros Hend Hs fuel. revert s Hs. induction fuel as [|fuel IH]; intros s Hs ps; simpl;
    [discriminate|].
  destruct (Hend s Hs) as (Hst & y & Hy & Hedge).
  destruct (eq_dec s t); [contradiction|].
  destruct (successors G s) as [sss| |] eqn:Es; simpl; try discriminate.
  intros Hfm. apply flat_mapM_In in Hfm. destruct Hfm as [Hfm _].
  destruct (Hfm y) as (bs & Hbs); [now apply (successors_edge G s sss Es)|].
  destruct (listPaths fuel G y t) as [qs| |] eqn:Ey; simpl in Hbs; try discriminate.
  exact (IH y Hy qs Ey).
Qed.

End ListPaths.

Lemma listPaths_no_return_witness :
  endless cycle_quiver 3%nat (fun x => x = 1%nat \/ x = 2%nat) /\
  forall fuel ps, listPaths fuel cycle_quiver 1%nat 3%nat <> Done ps.
Proof.
  assert (endless cycle_quiver 3%nat (fun x => x = 1%nat \/ x = 2%nat)) as Hend.
  { intros x [ -> | -> ]; (split; [discriminate|]).
    - exists 2%nat. split; [now right|]. unfold edge. simpl. tauto.
    - exists 1%nat. split; [now left|]. unfold edge. simpl. tauto. }
  split; [exact Hend|].
  exact (listPaths_no_return cycle_quiver 3%nat _ 1%nat Hend (or_introl eq_refl)).
Defined.

(** ** The seed phase of arQuiver *)

Lemma nodes_add_node {M : Type} `{EqDec M} (G : Quiver M) (n x : M) :
  In x (nodes (add_node G n)) <-> In x (nodes G) \/ x = n.
Proof.
  unfold add_node. destruct (mem n (nodes G)) eqn:E; simpl.
  - apply mem_In in E. split; [now left|]. intros [Hx | ->]; assumption.
  - rewrite in_app_iff. simpl. intuition congruence.
Qed.

Lemma nodes_add_edge {M : Type} `{EqDec M} (G : Quiver M) (u v x : M) :
  In x (nodes (add_edge G u v)) <-> In x (nodes G) \/ x = u \/ x = v.
Proof.
  unfold add_edge. cbn [nodes]. rewrite !nodes_add_node. tauto.
Qed.

Lemma remove_node_spec {M : Type} `{EqDec M} (G G' : Quiver M) (n : M) :
  remove_node G n = Done G' ->
  (forall x, In x (nodes G') <-> In x (nodes G) /\ x <> n) /\
  (forall a b, In (a, b) (edges G') <-> In (a, b) (edges G) /\ a <> n /\ b <> n).
Proof.
  unfold remove_node. destruct (mem n (nodes G)); [|discriminate].
  intros [= <-]. cbn [nodes edges]. split.
  - intros x. rewrite filter_In. unfold eqb. destruct (eq_dec x n); simpl; intuition congruence.
  - intros a b. rewrite filter_In. unfold eqb. simpl.
    destruct (eq_dec a n), (eq_dec b n); simpl; intuition congruence.
Qed.

Lemma remove_node_missing {M : Type} `{EqDec M} (G : Quiver M) (n : M) :
  ~ In n (nodes G) -> remove_node G n = Raise NetworkXError.
Proof.
  intros Hn. unfold remove_node. destruct (mem n (nodes G)) eqn:E; [|reflexivity].
  apply mem_In in E. contradiction.
Qed.

Lemma zeros_all_zero {N : Type} (G : Quiver N) : Forall (eq 0) (zeros G).
Proof. unfold zeros. induction (nodes G); simpl; constructor; auto. Qed.

Lemma isSimple_zeros {N : Type} (G : Quiver N) : isSimple (zeros G) = false.
Proof.
  unfold isSimple. destruct (zeros_no_nonzero (zeros G) (zeros_all_zero G)) as [_ ->].
  reflexivity.
Qed.

Section SeedPhase.
Context {N : Type} `{EqDec N}.

Lemma seed_step_spec (fuel : nat) (G : Quiver N) ar todo v st' :
  seed_step fuel G (ar, todo) v = Done st' ->
  exists r pj ij,
    radical_proj fuel G v = Done r /\ proj_indecomp fuel G v = Done pj /\
    inj_indecomp fuel G v = Done ij /\
    st' = (add_node (add_edge ar r pj) ij, if isSimple pj then todo ++ [pj] else todo).
Proof.
  unfold seed_step.
  destruct (radical_proj fuel G v) as [r| |]; cbn [bind]; try discriminate.
  destruct (proj_indecomp fuel G v) as [pj| |]; cbn [bind]; try discriminate.
  destruct (inj_indecomp fuel G v) as [ij| |]; cbn [bind]; try discriminate.
  intros Hst. exists r, pj, ij. repeat split.
  destruct (isSimple pj); cbn [bind] in Hst; now injection Hst as <-.
Qed.

Lemma seed_loop_spec (fuel : nat) (G : Quiver N) (l : list N) ar todo ar' todo' :
  foldM (seed_step fuel G) l (ar, todo) = Done (ar', todo') ->
  (exists pjs, mapM (proj_indecomp fuel G) l = Done pjs /\
               todo' = todo ++ filter isSimple pjs) /\
  incl (nodes ar) (nodes ar') /\ incl (edges ar) (edges ar') /\
  (forall x, In x (nodes ar') ->
     In x (nodes ar) \/
     exists v, In v l /\ (radical_proj fuel G v = Done x \/ proj_indecomp fuel G v = Done x
                          \/ inj_indecomp fuel G v = Done x)) /\
  (forall v r pj ij, In v l ->
     radical_proj fuel G v = Done r -> proj_indecomp fuel G v = Done pj ->
     inj_indecomp fuel G v = Done ij ->
     In (r, pj) (edges ar') /\ In ij (nodes ar')).
Proof.
  revert ar todo. induction l as [|v l IH]; intros ar todo; cbn [foldM].
  - intros [= <- <-]. split; [exists []; split; [reflexivity|now rewrite app_nil_r]|].
    split; [apply incl_refl|]. split; [apply incl_refl|].
    split; [intros x Hx; now left|]. intros v r pj ij [].
  - destruct (seed_step fuel G (ar, todo) v) as [[ar1 todo1]| |] eqn:Estep;
      cbn [bind]; try discriminate.
    destruct (seed_step_spec fuel G ar todo v _ Estep) as (r & pj & ij & Hr & Hpj & Hij & Hst).
    injection Hst as -> ->. intros Hrest.
    destruct (IH _ _ Hrest) as ((pjs & Hpjs & Htodo) & Hn & He & Hfrom & Hall).
    split; [|split; [|split; [|split]]].
    + exists (pj :: pjs). cbn [mapM]. rewrite Hpj, Hpjs. cbn [bind]. split; [reflexivity|].
      rewrite Htodo. simpl. destruct (isSimple pj); [now rewrite <- app_assoc|reflexivity].
    + intros x Hx. apply Hn. apply nodes_add_node. left. apply nodes_add_edge. now left.
    + intros e He0. apply He. rewrite edges_add_node, edges_add_edge.
      apply in_app_iff. now left.
    + intros x Hx. destruct (Hfrom x Hx) as [Hx0|(v0 & Hv0 & Hcase)].
      * apply nodes_add_node in Hx0. destruct Hx0 as [Hx0| ->].
        -- apply nodes_add_edge in Hx0. destruct Hx0 as [Hx0|[ -> | -> ]].
           ++ now left.
           ++ right. exists v. split; [now left|now left].
           ++ right. exists v. split; [now left|right; now left].
        -- right. exists v. split; [now left|right; now right].
      * right. exists v0. split; [now right|exact Hcase].
    + intros v0 r0 pj0 ij0 [<-|Hv0] Hr0 Hpj0 Hij0.
      * rewrite Hr in Hr0. rewrite Hpj in Hpj0. rewrite Hij in Hij0.
        injection Hr0 as <-. injection Hpj0 as <-. injection Hij0 as <-. split.
        -- apply He. rewrite edges_add_node, edges_add_edge. apply in_app_iff. right. now left.
        -- apply Hn. apply nodes_add_node. now right.
      * exact (Hall v0 r0 pj0 ij0 Hv0 Hr0 Hpj0 Hij0).
Qed.

(** When the seed phase completes, the worklist holds the projectives of
    the vertices that are simple, in the order of the vertices, and
    nothing else. *)
Theorem seed_worklist (fuel : nat) (G : Quiver N) ar todo :
  seed fuel G = Done (ar, todo) ->
  exists pjs, mapM (proj_indecomp fuel G) (nodes G) = Done pjs /\
              todo = filter isSimple pjs.
Proof.
  unfold seed.
  destruct (foldM (seed_step fuel G) (nodes G) (new_quiver, [])) as [[ar0 todo0]| |] eqn:E;
    cbn [bind]; try discriminate.
  destruct (remove_node ar0 (zeros G)) as [ar1| |]; cbn [bind]; try discriminate.
  intros [= <- <-]. exact (proj1 (seed_loop_spec fuel G _ _ _ _ _ E)).
Qed.

(** When the seed phase completes, the zero vector is not a node of the
    AR quiver, no edge starts or ends at it, and it is not on the
    worklist. *)
Theorem seed_without_zero (fuel : nat) (G : Quiver N) ar todo :
  seed fuel G = Done (ar, todo) ->
  ~ In (zeros G) (nodes ar) /\
  (forall a b, In (a, b) (edges ar) -> a <> zeros G /\ b <> zeros G) /\
  ~ In (zeros G) todo.
Proof.
  unfold seed.
  destruct (foldM (seed_step fuel G) (nodes G) (new_quiver, [])) as [[ar0 todo0]| |] eqn:E;
    cbn [bind]; try discriminate.
  destruct (remove_node ar0 (zeros G)) as [ar1| |] eqn:Er; cbn [bind]; try discriminate.
  intros [= <- <-]. destruct (remove_node_spec ar0 ar1 (zeros G) Er) as [Hn He].
  split; [|split].
  - intros Hin. apply Hn in Hin. now destruct Hin.
  - intros a b Hin. apply He in Hin. now destruct Hin.
  - destruct (proj1 (seed_loop_spec fuel G _ _ _ _ _ E)) as (pjs & _ & ->).
    simpl. intros Hin. apply filter_In in Hin. destruct Hin as [_ Hs].
    now rewrite isSimple_zeros in Hs.
Qed.

End SeedPhase.

(** ** The AR quiver only grows in the worklist phase *)

Lemma link_successors_incl (w : vec) (ss : list vec) (st : Quiver vec * list vec) :
  incl (nodes (fst st)) (nodes (fst (fold_left (link_successor w) ss st))) /\
  incl (edges (fst st)) (edges (fst (fold_left (link_successor w) ss st))).
Proof.
  revert st. induction ss as [|s ss IH]; intros [ar todo]; cbn [fold_left].
  - split; apply incl_refl.
  - change (link_successor w (ar, todo) s)
      with (add_edge ar s w, if mem s todo then todo else todo ++ [s]).
    destruct (IH (add_edge ar s w, if mem s todo then todo else todo ++ [s])) as [IHn IHe].
    cbn [fst] in *. split.
    + intros x Hx. apply IHn. apply nodes_add_edge. now left.
    + intros e He. apply IHe. rewrite edges_add_edge. apply in_app_iff. now left.
Qed.

Section Growth.
Context {N : Type} `{EqDec N}.

Lemma worklist_round_incl (fuel : nat) (G : Quiver N) ar todo (r : round N) :
  worklist_round fuel G ar todo = Done r ->
  match r with
  | Next _ ar' _ => incl (nodes ar) (nodes ar') /\ incl (edges ar) (edges ar')
  | Return ar' => ar' = ar
  end.
Proof.
  unfold worklist_round. destruct todo as [|p rest]; [now intros [= <-]|].
  destruct (rule_A fuel G p) as [[G1 skip]| |]; cbn [bind]; try discriminate.
  destruct skip; [intros [= <-]; split; apply incl_refl|].
  destruct (successors ar p) as [ss| |]; cbn [bind]; try discriminate.
  destruct (candidate ss p) as [w| |]; cbn [bind]; try discriminate.
  destruct (existsb (fun wv => wv <? 0) w); [intros [= <-]; split; apply incl_refl|].
  destruct (existsb (fun wv => 7 <=? wv) w); [now intros [= <-]|].
  pose proof (link_successors_incl w ss (ar, rest)) as Hincl.
  destruct (fold_left (link_successor w) ss (ar, rest)) as [ar1 todo1].
  intros [= <-]. exact Hincl.
Qed.

Lemma worklist_incl (rounds fuel : nat) (G : Quiver N) ar todo ar' :
  worklist rounds fuel G ar todo = Done ar' ->
  incl (nodes ar) (nodes ar') /\ incl (edges ar) (edges ar').
Proof.
  revert G ar todo. induction rounds as [|rounds IH]; intros G ar todo; cbn [worklist];
    [discriminate|].
  destruct (worklist_round fuel G ar todo) as [r| |] eqn:Er; cbn [bind]; try discriminate.
  pose proof (worklist_round_incl fuel G ar todo r Er) as Hr. destruct r as [G1 ar1 todo1|ar1].
  - intros Hw. destruct (IH _ _ _ Hw) as [Hn He]. destruct Hr as [Hn1 He1]. split.
    + exact (incl_tran Hn1 Hn).
    + exact (incl_tran He1 He).
  - intros [= <-]. subst ar1. split; apply incl_refl.
Qed.

(** The worklist phase never removes anything: the AR quiver it returns
    has all the nodes and all the edges it started with. *)
Theorem worklist_grows (rounds fuel : nat) (G : Quiver N) ar todo ar' :
  worklist rounds fuel G ar todo = Done ar' ->
  incl (nodes ar) (nodes ar') /\ incl (edges ar) (edges ar').
Proof. exact (worklist_incl rounds fuel G ar todo ar'). Qed.

Lemma seed_loop_returns (fuel : nat) (G : Quiver N) (l : list N) st st' :
  foldM (seed_step fuel G) l st = Done st' ->
  forall v, In v l ->
    exists r pj ij, radical_proj fuel G v = Done r /\ proj_indecomp fuel G v = Done pj /\
                    inj_indecomp fuel G v = Done ij.
Proof.
  revert st. induction l as [|v0 l IH]; intros st; cbn [foldM]; [intros _ v []|].
  destruct (seed_step fuel G st v0) as [st1| |] eqn:Estep; cbn [bind]; try discriminate.
  intros Hrest v [<-|Hv]; [|exact (IH st1 Hrest v Hv)].
  destruct st as [ar todo].
  destruct (seed_step_spec fuel G ar todo v0 st1 Estep) as (r & pj & ij & Hr & Hpj & Hij & _).
  now exists r, pj, ij.
Qed.

(** When [arQuiver] returns, then for every vertex [v] of the source
    quiver the three vectors of [v] were computed, the AR quiver has the
    edge from the radical of the projective of [v] to that projective
    unless one of the two is the zero vector, and it has the injective of
    [v] as a node unless that is the zero vector. *)
Theorem arQuiver_seed_edges (fuel : nat) (G : Quiver N) ar (v : N) :
  arQuiver fuel G = Done ar -> In v (nodes G) ->
  exists r pj ij,
    radical_proj fuel G v = Done r /\ proj_indecomp fuel G v = Done pj /\
    inj_indecomp fuel G v = Done ij /\
    (r <> zeros G -> pj <> zeros G -> In (r, pj) (edges ar)) /\
    (ij <> zeros G -> In ij (nodes ar)).
Proof.
  unfold arQuiver, seed.
  destruct (foldM (seed_step fuel G) (nodes G) (new_quiver, [])) as [[ar0 todo0]| |] eqn:E;
    cbn [bind]; try discriminate.
  destruct (remove_node ar0 (zeros G)) as [ar1| |] eqn:Er; cbn [bind]; try discriminate.
  intros Hw Hv. destruct (worklist_incl _ _ _ _ _ _ Hw) as [Hn He].
  destruct (seed_loop_returns fuel G _ _ _ E v Hv) as (r & pj & ij & Hr & Hpj & Hij).
  destruct (seed_loop_spec fuel G _ _ _ _ _ E) as (_ & _ & _ & _ & Hall).
  destruct (Hall v r pj ij Hv Hr Hpj Hij) as [Hedge Hnode].
  destruct (remove_node_spec ar0 ar1 (zeros G) Er) as [Hn1 He1].
  exists r, pj, ij. repeat split; try assumption.
  - intros Hr0 Hpj0. apply He. apply He1. now repeat split.
  - intros Hij0. apply Hn. apply Hn1. now split.
Qed.

End Growth.

Lemma arQuiver_seed_edges_witness :
  In 1%nat (nodes example_quiver) /\
  exists ar r pj ij,
    arQuiver 30 example_quiver = Done ar /\
    radical_proj 30 example_quiver 1%nat = Done r /\
    proj_indecomp 30 example_quiver 1%nat = Done pj /\
    inj_indecomp 30 example_quiver 1%nat = Done ij /\
    (r <> zeros example_quiver -> pj <> zeros example_quiver -> In (r, pj) (edges ar)) /\
    (ij <> zeros example_quiver -> In ij (nodes ar)).
Proof.
  assert (In 1%nat (nodes example_quiver)) as Hv by (simpl; tauto).
  split; [exact Hv|].
  destruct (arQuiver 30 example_quiver) as [ar| |] eqn:E; [|vm_compute in E; discriminate..].
  destruct (arQuiver_seed_edges 30 example_quiver ar 1%nat E Hv)
    as (r & pj & ij & Hr & Hpj & Hij & Hedge & Hnode).
  exists ar, r, pj, ij. repeat split; assumption.
Defined.

Lemma worklist_grows_witness :
  exists ar todo ar',
    seed 30 example_quiver = Done (ar, todo) /\
    worklist 30 30 example_quiver ar todo = Done ar' /\
    incl (nodes ar) (nodes ar') /\ incl (edges ar) (edges ar').
Proof.
  destruct (seed 30 example_quiver) as [[ar todo]| |] eqn:Es;
    [|vm_compute in Es; discriminate..].
  destruct (worklist 30 30 example_quiver ar todo) as [ar'| |] eqn:Ew;
    [|vm_compute in Es; injection Es as <- <-; vm_compute in Ew; discriminate..].
  exists ar, todo, ar'. split; [reflexivity|]. split; [exact Ew|].
  exact (worklist_grows 30 30 example_quiver ar todo ar' Ew).
Defined.

(** ** arQuiver needs a vertex with a simple projective *)

Lemma one_not_zeros {N : Type} (G : Quiver N) (x : vec) (k : nat) :
  nth_error x k = Some 1 -> x <> zeros G.
Proof.
  intros Hk ->. apply nth_error_In in Hk.
  pose proof (zeros_all_zero G) as Hz. rewrite Forall_forall in Hz.
  specialize (Hz 1 Hk). discriminate.
Qed.

Lemma zeroed_unit_simple {N : Type} (G : Quiver N) (pj : vec) (k : nat) :
  nth_error pj k = Some 1 ->
  firstn k pj ++ 0 :: skipn (S k) pj = zeros G ->
  isSimple pj = true.
Proof.
  intros Hk Hz. destruct (nth_error_split pj k Hk) as (l1 & l2 & -> & Hlen).
  subst k.
  assert (firstn (length l1) (l1 ++ 1 :: l2) = l1) as Hf
      by (rewrite firstn_app, firstn_all, Nat.sub_diag; simpl; apply app_nil_r).
  assert (skipn (S (length l1)) (l1 ++ 1 :: l2) = l2) as Hs.
  { rewrite skipn_app, skipn_all2 by lia.
    replace (S (length l1) - length l1)%nat with 1%nat by lia. reflexivity. }
  rewrite Hf, Hs in Hz.
  pose proof (zeros_all_zero G) as Hall. rewrite <- Hz in Hall.
  apply Forall_app in Hall. destruct Hall as [H1 H2].
  apply Forall_cons_iff in H2. destruct H2 as [_ H2].
  apply isSimple_iff_unit. now exists l1, l2.
Qed.

Section NeedsSimple.
Context {N : Type} `{EqDec N}.

Lemma inj_indecomp_shape (fuel : nat) (G : Quiver N) (v : N) (ij : vec) :
  cached (aii G) = None -> In v (nodes G) -> inj_indecomp fuel G v = Done ij ->
  exists i, index_of (nodes G) v = Done i /\
            length ij = length (nodes G) /\
            nth_error ij (Z.to_nat i) = Some 1.
Proof.
  intros Haii Hv Hij.
  destruct (index_of_spec (nodes G) v Hv) as (i & Hi & Hrange & Hnth).
  exists i. split; [exact Hi|].
  assert (mapM (fun w => countReducedPaths fuel G w v) (nodes G) = Done ij) as Hm
      by (unfold inj_indecomp in Hij; now rewrite Haii in Hij).
  split; [exact (mapM_length _ _ _ Hm)|].
  destruct (mapM_nth _ _ _ _ _ Hm Hnth) as (c & Hc & Hpc).
  apply countReducedPaths_refl in Hc. now subst c.
Qed.

(** On a quiver without filled caches, when no vertex has a simple
    projective (nothing would be enqueued), [arQuiver] does not return an
    AR quiver: the zero vector is not among the nodes added by the seed
    loop, and removing it raises. *)
Theorem arQuiver_needs_simple_projective (fuel : nat) (G : Quiver N) :
  uncached G ->
  (forall v pj, In v (nodes G) -> proj_indecomp fuel G v = Done pj -> isSimple pj = false) ->
  forall ar, arQuiver fuel G <> Done ar.
Proof.
  intros (Hapi & Haii & Hari) Hnone ar. unfold arQuiver, seed.
  destruct (foldM (seed_step fuel G) (nodes G) (new_quiver, [])) as [[ar0 todo0]| |] eqn:E;
    cbn [bind]; try discriminate.
  destruct (seed_loop_spec fuel G _ _ _ _ _ E) as (_ & _ & _ & Hfrom & _).
  rewrite remove_node_missing; [discriminate|].
  intros Hz. destruct (Hfrom _ Hz) as [[]|(v & Hv & Hcase)].
  destruct (seed_loop_returns fuel G _ _ _ E v Hv) as (r & pj & ij & Hr & Hpj & Hij).
  destruct (radical_proj_shape fuel G v pj Hapi Hari Hv Hpj) as (i & Hi & Hlen & Hone & Hrad).
  destruct Hcase as [Hc|[Hc|Hc]].
  - rewrite Hrad in Hc. injection Hc as Hc.
    pose proof (zeroed_unit_simple G pj (Z.to_nat i) Hone Hc) as Hs.
    rewrite (Hnone v pj Hv Hpj) in Hs. discriminate.
  - rewrite Hpj in Hc. injection Hc as ->. exact (one_not_zeros G _ _ Hone eq_refl).
  - destruct (inj_indecomp_shape fuel G v _ Haii Hv Hc) as (i' & _ & _ & Hone').
    exact (one_not_zeros G _ _ Hone' eq_refl).
Qed.

End NeedsSimple.

Lemma arQuiver_needs_simple_projective_witness :
  uncached two_cycle /\
  (forall v pj, In v (nodes two_cycle) -> proj_indecomp 5 two_cycle v = Done pj ->
                isSimple pj = false) /\
  forall ar, arQuiver 5 two_cycle <> Done ar.
Proof.
  assert (uncached two_cycle) as Hu by (repeat split).
  assert (forall v pj, In v (nodes two_cycle) -> proj_indecomp 5 two_cycle v = Done pj ->
                       isSimple pj = false) as Hnone.
  { intros v pj Hv. simpl in Hv. destruct Hv as [<-|[<-|[]]]; vm_compute;
      intros [= <-]; reflexivity. }
  split; [exact Hu|]. split; [exact Hnone|].
  exact (arQuiver_needs_simple_projective 5 two_cycle Hu Hnone).
Defined.

(** ** arQuiver raises in its seed phase or not at all *)

Lemma mapM_returns {A B : Type} (f : A -> outcome B) (l : list A) :
  (forall a, In a l -> exists b, f a = Done b) -> exists r, mapM f l = Done r.
Proof.
  induction l as [|a l IH]; intros Hall; cbn [mapM]; [now exists []|].
  destruct (Hall a (or_introl eq_refl)) as (b & ->).
  destruct IH as (r & ->); [intros a0 Ha0; apply Hall; now right|].
  cbn [bind]. now exists (b :: r).
Qed.

Lemma mapM_In {A B : Type} (f : A -> outcome B) (l : list A) (r : list B) (b : B) :
  mapM f l = Done r -> In b r -> exists a, In a l /\ f a = Done b.
Proof.
  revert r. induction l as [|a l IH]; cbn [mapM]; intros r.
  - intros [= <-] [].
  - destruct (f a) as [b0| |] eqn:Ea; cbn [bind]; try discriminate.
    destruct (mapM f l) as [bs| |]; cbn [bind]; try discriminate.
    intros [= <-] [<-|Hb].
    + exists a. split; [now left|exact Ea].
    + destruct (IH bs eq_refl Hb) as (a0 & Ha0 & Hf). exists a0. split; [now right|exact Hf].
Qed.

Lemma range_In (m j : Z) : In j (range m) -> 0 <= j < m.
Proof.
  unfold range. rewrite in_map_iff. intros (k & <- & Hk). apply in_seq in Hk. lia.
Qed.

Lemma range_length (m : nat) : length (range (Z.of_nat m)) = m.
Proof. unfold range. now rewrite length_map, length_seq, Nat2Z.id. Qed.

Lemma candidate_returns (ss : list vec) (p : vec) :
  (forall s, In s ss -> length s = length p) ->
  exists w, candidate ss p = Done w /\ length w = length p.
Proof.
  intros Hss. unfold candidate.
  destruct (mapM_returns
              (fun j => col <- mapM (fun s => getitem s j) ss ;;
                        pj <- getitem p j ;; Done (fold_right Z.add 0 col - pj))
              (range (Z.of_nat (length p)))) as (w & Hw).
  - intros j Hj. apply range_In in Hj.
    destruct (mapM_returns (fun s => getitem s j) ss) as (col & ->).
    { intros s Hs. destruct (getitem_nonneg s j) as (x & -> & _);
        [rewrite (Hss s Hs); exact Hj|]. now exists x. }
    destruct (getitem_nonneg p j Hj) as (x & -> & _). cbn [bind]. eauto.
  - exists w. split; [exact Hw|]. apply mapM_length in Hw. now rewrite range_length in Hw.
Qed.

Lemma closed_add_node {M : Type} `{EqDec M} (G : Quiver M) (n : M) :
  closed G -> closed (add_node G n).
Proof.
  intros HG u v. unfold edge. rewrite edges_add_node. intros Hin.
  destruct (HG u v Hin) as [Hu Hv]. split; apply nodes_add_node; now left.
Qed.

Lemma closed_add_edge {M : Type} `{EqDec M} (G : Quiver M) (a b : M) :
  closed G -> closed (add_edge G a b).
Proof.
  intros HG u v. unfold edge. rewrite edges_add_edge, in_app_iff. intros [Hin|[[= <- <-]|[]]].
  - destruct (HG u v Hin) as [Hu Hv]. split; apply nodes_add_edge; now left.
  - split; apply nodes_add_edge; right; [now left|now right].
Qed.

Lemma closed_remove_node {M : Type} `{EqDec M} (G G' : Quiver M) (n : M) :
  closed G -> remove_node G n = Done G' -> closed G'.
Proof.
  intros HG Hr u v Hin. destruct (remove_node_spec G G' n Hr) as [Hn He].
  apply He in Hin. destruct Hin as (Hin & Hu & Hv). destruct (HG u v Hin) as [Hu' Hv'].
  split; apply Hn; now split.
Qed.

Lemma link_successors_shaped (n : nat) (w : vec) (ss : list vec) st :
  length w = n -> well_shaped n st -> incl ss (nodes (fst st)) ->
  well_shaped n (fold_left (link_successor w) ss st).
Proof.
  intros Hw. revert st. induction ss as [|s ss IH]; intros [ar todo] Hst Hss;
    cbn [fold_left]; [exact Hst|].
  change (link_successor w (ar, todo) s)
    with (add_edge ar s w, if mem s todo then todo else todo ++ [s]).
  destruct Hst as (Hlen & Hcl & Htodo). cbn [fst snd] in *.
  assert (In s (nodes ar)) as Hs by (apply Hss; now left).
  apply IH.
  - split; [|split]; cbn [fst snd].
    + intros x Hx. apply nodes_add_edge in Hx. destruct Hx as [Hx|[ -> | -> ]]; auto.
    + now apply closed_add_edge.
    + assert (incl todo (nodes (add_edge ar s w))) as Ht
          by (intros x Hx; apply nodes_add_edge; left; now apply Htodo).
      destruct (mem s todo); [exact Ht|].
      intros x Hx. apply in_app_or in Hx. destruct Hx as [Hx|[<-|[]]]; [now apply Ht|].
      apply nodes_add_edge. now left.
  - cbn [fst]. intros x Hx. apply nodes_add_edge. left. apply Hss. now right.
Qed.

Lemma zeroed_length (pj : vec) (k : nat) :
  (k < length pj)%nat -> length (firstn k pj ++ 0 :: skipn (S k) pj) = length pj.
Proof.
  intros Hk. rewrite length_app, length_firstn. cbn [length]. rewrite length_skipn. lia.
Qed.

Section NeverRaises.
Context {N : Type} `{EqDec N}.

Lemma all_inj_indecomp_again (fuel : nat) (G G' : Quiver N) (c : list vec) :
  all_inj_indecomp fuel G = Done (G', c) -> all_inj_indecomp fuel G' = Done (G', c).
Proof.
  unfold all_inj_indecomp at 1. destruct (cached (aii G)) as [c0|] eqn:Ec.
  - intros [= <- <-]. unfold all_inj_indecomp. now rewrite Ec.
  - destruct (mapM (inj_indecomp fuel G) (nodes G)) as [c1| |] eqn:Em;
      cbn [bind]; try discriminate.
    intros [= <- <-]. unfold all_inj_indecomp. cbn [aii nodes].
    destruct c1 as [|x c1]; cbn [cached]; [|reflexivity].
    apply mapM_length in Em. destruct (nodes G); [reflexivity|discriminate].
Qed.

Lemma rule_A_returns (fuel : nat) (G : Quiver N) (p : vec) :
  inj_ready fuel G ->
  exists G' b, rule_A fuel G p = Done (G', b) /\ inj_ready fuel G'.
Proof.
  intros (G' & c & H1 & H2). unfold rule_A. destruct (isSimple p).
  - rewrite H1. cbn [bind]. exists G', (mem p c). split; [reflexivity|].
    exists G', c. now split.
  - exists G, false. split; [reflexivity|]. exists G', c. now split.
Qed.

Lemma worklist_round_shaped (fuel n : nat) (G : Quiver N) ar todo :
  well_shaped n (ar, todo) -> inj_ready fuel G ->
  exists r, worklist_round fuel G ar todo = Done r /\
            match r with
            | Next G' ar' todo' => well_shaped n (ar', todo') /\ inj_ready fuel G'
            | Return _ => True
            end.
Proof.
  intros (Hlen & Hcl & Htodo) Hready. cbn [fst snd] in *. unfold worklist_round.
  destruct todo as [|p rest]; [now exists (Return ar)|].
  assert (In p (nodes ar)) as Hp by (apply Htodo; now left).
  assert (incl rest (nodes ar)) as Hrest by (intros x Hx; apply Htodo; now right).
  destruct (rule_A_returns fuel G p Hready) as (G' & skip & -> & Hready'). cbn [bind].
  assert (well_shaped n (ar, rest)) as Hsame by (split; [|split]; assumption).
  destruct skip; [exists (Next G' ar rest); now split|].
  destruct (successors ar p) as [ss| |] eqn:Ess;
    try (unfold successors in Ess; rewrite (proj2 (mem_In p (nodes ar)) Hp) in Ess;
         discriminate).
  cbn [bind].
  assert (incl ss (nodes ar)) as Hss.
  { intros s Hs. apply (successors_edge ar p ss Ess) in Hs. exact (proj2 (Hcl p s Hs)). }
  destruct (candidate_returns ss p) as (w & -> & Hw).
  { intros s Hs. rewrite (Hlen s (Hss s Hs)). symmetry. now apply Hlen. }
  cbn [bind]. rewrite (Hlen p Hp) in Hw.
  destruct (existsb (fun wv => wv <? 0) w); [exists (Next G' ar rest); now split|].
  destruct (existsb (fun wv => 7 <=? wv) w); [now exists (Return ar)|].
  pose proof (link_successors_shaped n w ss (ar, rest) Hw Hsame Hss) as Hshaped.
  destruct (fold_left (link_successor w) ss (ar, rest)) as [ar1 todo1].
  exists (Next G' ar1 todo1). now split.
Qed.

Lemma worklist_no_raise (fuel n rounds : nat) (G : Quiver N) ar todo (e : exn) :
  well_shaped n (ar, todo) -> inj_ready fuel G ->
  worklist rounds fuel G ar todo <> Raise e.
Proof.
  revert G ar todo. induction rounds as [|rounds IH]; intros G ar todo Hst Hready;
    cbn [worklist]; [discriminate|].
  destruct (worklist_round_shaped fuel n G ar todo Hst Hready) as (r & -> & Hr).
  cbn [bind]. destruct r as [G' ar' todo'|ar']; [|discriminate].
  destruct Hr as [Hst' Hready']. now apply IH.
Qed.

Lemma radical_length (fuel : nat) (G : Quiver N) (v : N) (r : vec) :
  uncached G -> In v (nodes G) -> radical_proj fuel G v = Done r ->
  length r = length (nodes G).
Proof.
  intros (Hapi & _ & Hari) Hv Hr.
  destruct (proj_indecomp fuel G v) as [pj| |] eqn:Epj;
    try (unfold radical_proj in Hr; rewrite Hari, Epj in Hr; discriminate).
  destruct (radical_proj_shape fuel G v pj Hapi Hari Hv Epj) as (i & Hi & Hlen & Hone & Hrad).
  rewrite Hrad in Hr. injection Hr as <-.
  assert (Z.to_nat i < length pj)%nat as Hlt by (apply nth_error_Some; congruence).
  rewrite <- Hlen. exact (zeroed_length pj (Z.to_nat i) Hlt).
Qed.

Lemma seed_shaped (fuel : nat) (G : Quiver N) ar todo :
  uncached G -> seed fuel G = Done (ar, todo) ->
  well_shaped (length (nodes G)) (ar, todo) /\ inj_ready fuel G.
Proof.
  intros Hu Hseed. pose proof Hu as (Hapi & Haii & Hari).
  revert Hseed. unfold seed.
  destruct (foldM (seed_step fuel G) (nodes G) (new_quiver, [])) as [[ar0 todo0]| |] eqn:E;
    cbn [bind]; try discriminate.
  destruct (remove_node ar0 (zeros G)) as [ar1| |] eqn:Er; cbn [bind]; try discriminate.
  intros [= <- <-].
  destruct (seed_loop_spec fuel G _ _ _ _ _ E) as ((pjs & Hpjs & Htodo) & _ & _ & Hfrom & Hall).
  pose proof (seed_loop_returns fuel G _ _ _ E) as Hret.
  destruct (remove_node_spec ar0 ar1 (zeros G) Er) as [Hn He].
  assert (closed ar0) as Hcl0.
  { apply (foldM_invariant (seed_step fuel G) (fun st => closed (fst st))
                           (nodes G) (new_quiver, []) (ar0, todo0)); [| |exact E].
    - intros [a t] v [a1 t1] Ha Hstep.
      destruct (seed_step_spec fuel G a t v _ Hstep) as (r & pj & ij & _ & _ & _ & Hst).
      injection Hst as -> _. cbn [fst] in *. now apply closed_add_node, closed_add_edge.
    - intros u v []. }
  split; [split; [|split]|]; cbn [fst snd].
  - intros x Hx. apply Hn in Hx. destruct Hx as [Hx _].
    destruct (Hfrom x Hx) as [[]|(v & Hv & [Hc|[Hc|Hc]])].
    + exact (radical_length fuel G v x Hu Hv Hc).
    + destruct (radical_proj_shape fuel G v x Hapi Hari Hv Hc) as (_ & _ & Hlen & _).
      exact Hlen.
    + destruct (inj_indecomp_shape fuel G v x Haii Hv Hc) as (_ & _ & Hlen & _).
      exact Hlen.
  - exact (closed_remove_node ar0 ar1 (zeros G) Hcl0 Er).
  - subst todo0. simpl. intros x Hx. apply filter_In in Hx. destruct Hx as [Hx Hs].
    destruct (mapM_In _ _ _ _ Hpjs Hx) as (v & Hv & Hpj).
    destruct (Hret v Hv) as (r & pj & ij & Hr & Hpj' & Hij).
    rewrite Hpj in Hpj'. injection Hpj' as <-.
    destruct (Hall v r x ij Hv Hr Hpj Hij) as [Hedge _].
    apply Hn. split; [exact (proj2 (Hcl0 r x Hedge))|].
    intros ->. now rewrite isSimple_zeros in Hs.
  - destruct (mapM_returns (inj_indecomp fuel G) (nodes G)) as (c & Hc).
    { intros v Hv. destruct (Hret v Hv) as (_ & _ & ij & _ & _ & Hij). now exists ij. }
    assert (all_inj_indecomp fuel G =
            Done (mkQuiver (nodes G) (edges G) (rel G) (comm G) (api G) (Some c) (ari G), c))
      as Hall_inj by (unfold all_inj_indecomp; now rewrite Haii, Hc).
    eexists. exists c. split; [exact Hall_inj|].
    exact (all_inj_indecomp_again fuel G _ c Hall_inj).
Qed.

(** On a quiver without filled caches [arQuiver] raises in its seed phase
    or not at all: once the seed phase is over, every round of the
    worklist phase finds its vertex in the AR quiver and its vectors of
    equal length. *)
Theorem arQuiver_raises_in_seed (fuel : nat) (G : Quiver N) (e : exn) :
  uncached G -> arQuiver fuel G = Raise e -> seed fuel G = Raise e.
Proof.
  intros Hu. unfold arQuiver.
  destruct (seed fuel G) as [[ar todo]| |] eqn:Es; cbn [bind]; try discriminate.
  - intros Hw. exfalso. destruct (seed_shaped fuel G ar todo Hu Es) as [Hst Hready].
    exact (worklist_no_raise fuel _ fuel G ar todo e Hst Hready Hw).
  - now intros [= ->].
Qed.

End NeverRaises.

Lemma arQuiver_raises_in_seed_witness :
  uncached two_cycle /\ arQuiver 5 two_cycle = Raise NetworkXError /\
  seed 5 two_cycle = Raise NetworkXError.
Proof.
  assert (uncached two_cycle) as Hu by (repeat split).
  assert (arQuiver 5 two_cycle = Raise NetworkXError) as Hr by (vm_compute; reflexivity).
  split; [exact Hu|]. split; [exact Hr|].
  exact (arQuiver_raises_in_seed 5 two_cycle NetworkXError Hu Hr).
Defined.

(** ** listReducedPaths, and vertices that are not there *)

Section ReducedPaths.
Context {N : Type} `{EqDec N}.

(** [listReducedPaths(s, t)] lists each reduced path once, and its
    elements are exactly the results of [applyRelations] on the paths of
    [listPaths(s, t)]. *)
Theorem listReducedPaths_spec (fuel : nat) (G : Quiver N) (s t : N) (l : list (list N)) :
  listReducedPaths fuel G s t = Done l ->
  NoDup l /\
  exists ps, listPaths fuel G s t = Done ps /\
             forall q, In q l <-> exists p, In p ps /\ applyRelations fuel G p = Done q.
Proof.
  unfold listReducedPaths.
  destruct (listPaths fuel G s t) as [ps| |]; cbn [bind]; try discriminate.
  destruct (mapM (applyRelations fuel G) ps) as [red| |] eqn:Em; cbn [bind]; try discriminate.
  intros [= <-]. split; [apply dedup_NoDup|]. exists ps. split; [reflexivity|].
  intros q. rewrite dedup_In. split.
  - intros Hq. exact (mapM_In _ _ _ _ Em Hq).
  - intros (p & Hp & Hq). destruct (In_nth_error ps p Hp) as (k & Hk).
    destruct (mapM_nth _ _ _ _ _ Em Hk) as (q' & Hq' & Hkq).
    rewrite Hq in Hq'. injection Hq' as <-. exact (nth_error_In _ _ Hkq).
Qed.

(** Asking for the projective of something that is not a vertex: with the
    cache filled [index] raises [ValueError]; without it, on a quiver with
    at least one vertex, the path search raises [NetworkXError]. *)
Theorem proj_indecomp_not_a_vertex (fuel : nat) (G : Quiver N) (v : N) :
  ~ In v (nodes G) ->
  (forall c, cached (api G) = Some c -> proj_indecomp fuel G v = Raise ValueError) /\
  (cached (api G) = None -> nodes G <> [] ->
   proj_indecomp (S fuel) G v = Raise NetworkXError).
Proof.
  intros Hv. split.
  - intros c Hc. unfold proj_indecomp. rewrite Hc.
    assert (index_of (nodes G) v = Raise ValueError) as ->; [|reflexivity].
    clear Hc. induction (nodes G) as [|a l IH]; [reflexivity|]. cbn [index_of].
    destruct (eq_dec a v) as [->|Hne]; [exfalso; apply Hv; now left|].
    rewrite IH; [reflexivity|]. intros Hin. apply Hv. now right.
  - intros Hc Hne. unfold proj_indecomp. rewrite Hc.
    destruct (nodes G) as [|w l] eqn:En; [congruence|]. cbn [mapM].
    assert (v <> w) as Hvw by (intros ->; apply Hv; now left).
    assert (countReducedPaths (S fuel) G v w = Raise NetworkXError) as ->; [|reflexivity].
    unfold countReducedPaths, listReducedPaths. cbn [listPaths].
    destruct (eq_dec v w); [contradiction|].
    unfold successors. rewrite En.
    replace (mem v (w :: l)) with false; [reflexivity|].
    symmetry. destruct (mem v (w :: l)) eqn:E; [|reflexivity].
    apply mem_In in E. contradiction.
Qed.

End ReducedPaths.

Lemma listReducedPaths_spec_witness :
  listReducedPaths 5 example_quiver 1%nat 5%nat = Done [[1; 4; 5]]%nat /\
  NoDup [[1; 4; 5]]%nat /\
  exists ps, listPaths 5 example_quiver 1%nat 5%nat = Done ps /\
             forall q, In q [[1; 4; 5]]%nat <->
                       exists p, In p ps /\ applyRelations 5 example_quiver p = Done q.
Proof.
  split; [reflexivity|].
  exact (listReducedPaths_spec 5 example_quiver 1%nat 5%nat [[1; 4; 5]]%nat eq_refl).
Defined.

Lemma proj_indecomp_not_a_vertex_witness :
  ~ In 9%nat (nodes example_quiver) /\
  cached (api example_quiver) = None /\ nodes example_quiver <> [] /\
  proj_indecomp 5 example_quiver 9%nat = Raise NetworkXError.
Proof.
  assert (~ In 9%nat (nodes example_quiver)) as Hv by (simpl; intuition discriminate).
  split; [exact Hv|]. split; [reflexivity|]. split; [discriminate|].
  apply (proj2 (proj_indecomp_not_a_vertex 4 example_quiver 9%nat Hv));
    [reflexivity|discriminate].
Defined.

(** ** What a round of the worklist phase can add *)

Lemma link_successors_nodes (w : vec) (ss : list vec) (st : Quiver vec * list vec) :
  incl ss (nodes (fst st)) ->
  forall x, In x (nodes (fst (fold_left (link_successor w) ss st))) ->
            In x (nodes (fst st)) \/ (ss <> [] /\ x = w).
Proof.
  revert st. induction ss as [|s ss IH]; intros [ar todo] Hss x; cbn [fold_left].
  - now left.
  - change (link_successor w (ar, todo) s)
      with (add_edge ar s w, if mem s todo then todo else todo ++ [s]).
    intros Hx. apply IH in Hx.
    + cbn [fst] in *. destruct Hx as [Hx|[_ ->]]; [|right; split; [discriminate|reflexivity]].
      apply nodes_add_edge in Hx. destruct Hx as [Hx|[ -> | -> ]].
      * now left.
      * left. apply Hss. now left.
      * right. split; [discriminate|reflexivity].
    + cbn [fst] in *. intros y Hy. apply nodes_add_edge. left. apply Hss. now right.
Qed.

(** In a round of the worklist phase (on an AR quiver whose edges join
    nodes) the only node that can be new is the candidate [w] computed in
    that round from a non-empty list of successors; in particular the zero
    vector can only come back as such a candidate. *)
Theorem worklist_round_new_nodes {N : Type} `{EqDec N}
        (fuel : nat) (G G' : Quiver N) ar p rest ar' todo' :
  closed ar ->
  worklist_round fuel G ar (p :: rest) = Done (Next G' ar' todo') ->
  forall x, In x (nodes ar') ->
    In x (nodes ar) \/
    exists ss, successors ar p = Done ss /\ ss <> [] /\ candidate ss p = Done x.
Proof.
  intros Hcl. unfold worklist_round.
  destruct (rule_A fuel G p) as [[G1 skip]| |]; cbn [bind]; try discriminate.
  destruct skip; [intros [= _ <- _] x Hx; now left|].
  destruct (successors ar p) as [ss| |] eqn:Ess; cbn [bind]; try discriminate.
  destruct (candidate ss p) as [w| |] eqn:Ew; cbn [bind]; try discriminate.
  destruct (existsb (fun wv => wv <? 0) w); [intros [= _ <- _] x Hx; now left|].
  destruct (existsb (fun wv => 7 <=? wv) w); [discriminate|].
  assert (incl ss (nodes ar)) as Hss.
  { intros s Hs. apply (successors_edge ar p ss Ess) in Hs. exact (proj2 (Hcl p s Hs)). }
  pose proof (link_successors_nodes w ss (ar, rest) Hss) as Hnew.
  destruct (fold_left (link_successor w) ss (ar, rest)) as [ar1 todo1].
  intros [= _ <- _] x Hx. destruct (Hnew x Hx) as [Hold|[Hne ->]]; [now left|].
  right. exists ss. now repeat split.
Qed.

Lemma worklist_round_new_nodes_witness :
  closed (add_edge (@new_quiver vec) [0; 1] [1; 1]) /\
  exists (G' : Quiver nat) ar' todo',
    worklist_round 5 example_quiver (add_edge new_quiver [0; 1] [1; 1]) [[0; 1]]
      = Done (Next G' ar' todo') /\
    forall x, In x (nodes ar') ->
      In x (nodes (add_edge new_quiver [0; 1] [1; 1])) \/
      exists ss, successors (add_edge new_quiver [0; 1] [1; 1]) [0; 1] = Done ss /\
                 ss <> [] /\ candidate ss [0; 1] = Done x.
Proof.
  assert (closed (add_edge (@new_quiver vec) [0; 1] [1; 1])) as Hcl
      by (apply closed_check; reflexivity).
  split; [exact Hcl|].
  destruct (worklist_round 5 example_quiver (add_edge new_quiver [0; 1] [1; 1]) [[0; 1]])
    as [[G' ar' todo'|ar']| |] eqn:E; try (vm_compute in E; discriminate).
  exists G', ar', todo'. split; [reflexivity|].
  exact (worklist_round_new_nodes 5 example_quiver G' _ [0; 1] [] ar' todo' Hcl E).
Defined.

Lemma listPaths_sound_witness :
  listPaths 5 example_quiver 1%nat 5%nat = Done [[1; 2; 5]; [1; 4; 5]]%nat /\
  forall p, In p [[1; 2; 5]; [1; 4; 5]]%nat -> walk example_quiver 1%nat 5%nat p.
Proof.
  split; [reflexivity|].
  exact (listPaths_sound 5 example_quiver 1%nat 5%nat [[1; 2; 5]; [1; 4; 5]]%nat eq_refl).
Defined.

Lemma seed_worklist_witness :
  exists ar todo,
    seed 5 example_quiver = Done (ar, todo) /\
    exists pjs, mapM (proj_indecomp 5 example_quiver) (nodes example_quiver) = Done pjs /\
                todo = filter isSimple pjs.
Proof.
  destruct (seed 5 example_quiver) as [[ar todo]| |] eqn:E;
    [|vm_compute in E; discriminate..].
  exists ar, todo. split; [reflexivity|].
  exact (seed_worklist 5 example_quiver ar todo E).
Defined.

Lemma seed_without_zero_witness :
  exists ar todo,
    seed 5 example_quiver = Done (ar, todo) /\
    ~ In (zeros example_quiver) (nodes ar) /\
    (forall a b, In (a, b) (edges ar) ->
                 a <> zeros example_quiver /\ b <> zeros example_quiver) /\
    ~ In (zeros example_quiver) todo.
Proof.
  destruct (seed 5 example_quiver) as [[ar todo]| |] eqn:E;
    [|vm_compute in E; discriminate..].
  exists ar, todo. split; [reflexivity|].
  exact (seed_without_zero 5 example_quiver ar todo E).
Defined.
